(** * Linear regression from scratch: normal equation and batch gradient descent

    A shallow embedding of the notebook [lr.ipynb]: the two solvers
    [multiple_linear_regression] and [gradient_descent], the cost function
    [compute_cost] and the two [predict] definitions, together with the part
    of numpy they call.

    Numbers.  The notebook computes with float64.  The code is embedded
    twice.  In the first embedding every number is an exact rational in
    canonical form ([Qc]), so that equality is Leibniz equality and every
    definition evaluates; it carries the statements about shapes, the
    order of the steps and the algebra of the updates, which do not depend
    on rounding.  In the second, module [F64], every number is a binary64
    float and every operation is rounded; it carries the statements whose
    truth depends on rounding, overflow or NaN: what [np.linalg.inv]
    accepts, which error a mismatched input raises, and the sign of the
    cost.

    Arrays.  A one-dimensional array is a list; a two-dimensional array is a
    list of rows together with its column count, so that the shapes (0, n)
    and (m, 0) are distinct values, as they are for numpy.

    Errors.  Every operation that can raise does so through [result]; the
    exceptions are the ones numpy and Python raise on the paths the notebook
    exercises. *)

From Stdlib Require Import List ZArith QArith Qcanon Lia Bool Arith.
From Stdlib Require Floats Uint63.
Import ListNotations.

(** ** Exceptions and the error monad *)

Inductive exn : Type :=
| ValueError          (* shapes not aligned, operands not broadcastable, negative dimension *)
| LinAlgError         (* singular or non-square matrix passed to [np.linalg.inv] *)
| ZeroDivisionError   (* Python [1/0] *)
| IndexError.         (* index assignment outside the array *)

Inductive result (A : Type) : Type :=
| Ok (a : A)
| Raise (e : exn).

Arguments Ok {A} a.
Arguments Raise {A} e.

Definition bind {A B : Type} (c : result A) (k : A -> result B) : result B :=
  match c with
  | Ok a => k a
  | Raise e => Raise e
  end.

Notation "x <- c ;; k" := (bind c (fun x => k))
  (at level 61, c at next level, right associativity).

(** ** Arrays *)

Abbreviation vec := (list Qc).

Record ndarray : Type := Mat { ncols : nat; rows : list vec }.

Definition shape0 (X : ndarray) : nat := length (rows X).
Definition shape1 (X : ndarray) : nat := ncols X.

(** A two-dimensional numpy array is rectangular by construction: every
    row has [ncols] entries. *)
Definition rect (n : nat) (rs : list vec) : bool :=
  forallb (fun r => length r =? n) rs.

Definition wf (X : ndarray) : bool := rect (ncols X) (rows X).

Open Scope Qc_scope.

Definition Qc_of_Z (z : Z) : Qc := Q2Qc (inject_Z z).
Definition Qc_of_nat (n : nat) : Qc := Qc_of_Z (Z.of_nat n).

(** ** Pure vector and matrix arithmetic *)

Fixpoint zip_with (f : Qc -> Qc -> Qc) (a b : vec) : vec :=
  match a, b with
  | x :: a', y :: b' => f x y :: zip_with f a' b'
  | _, _ => []
  end.

Definition vadd (a b : vec) : vec := zip_with Qcplus a b.
Definition vsub (a b : vec) : vec := zip_with Qcminus a b.
Definition vscale (c : Qc) (a : vec) : vec := map (Qcmult c) a.

Fixpoint vsum (a : vec) : Qc :=
  match a with
  | [] => 0
  | x :: a' => x + vsum a'
  end.

(** Inner product of two vectors. *)
Fixpoint dotp (a b : vec) : Qc :=
  match a, b with
  | x :: a', y :: b' => x * y + dotp a' b'
  | _, _ => 0
  end.

(** Row vector times matrix: the combination [sum_k a_k * B_k] of the rows
    of [B]; [n] is the column count of [B]. *)
Fixpoint vecmat (n : nat) (a : vec) (B : list vec) : vec :=
  match a, B with
  | x :: a', r :: B' => vadd (vscale x r) (vecmat n a' B')
  | _, _ => repeat 0 n
  end.

(** Matrix times column vector, and matrix times matrix, on bare rows. *)
Definition mv (A : list vec) (v : vec) : vec := map (fun r => dotp r v) A.
Definition mm (n : nat) (A B : list vec) : list vec :=
  map (fun a => vecmat n a B) A.

(** Column [j] of a list of rows, and the transposed rows. *)
Definition col (j : nat) (A : list vec) : vec := map (fun r => nth j r 0) A.
Definition cols (n : nat) (A : list vec) : list vec :=
  map (fun j => col j A) (seq 0 n).

(** Unit vector [e_i] of length [n] and the rows of the identity matrix. *)
Definition unit (n i : nat) : vec :=
  map (fun j => if Nat.eqb j i then 1 else 0) (seq 0 n).
Definition identity (n : nat) : list vec := map (unit n) (seq 0 n).

(** ** Matrix inversion by Gauss-Jordan elimination

    [np.linalg.inv] is library code (LAPACK's LU solver).  In the exact
    embedding it is modelled by Gauss-Jordan elimination on the augmented
    matrix [A | I] over exact rationals.  LAPACK picks the pivot of largest
    magnitude where this model takes the first non-zero one; in exact
    arithmetic the pivot choice does not change the result, which the
    theorems below pin down as the inverse.  This is what the call computes
    over the reals; which float64 matrices the call accepts, and what it
    returns for them, is the business of [F64.np.linalg.inv] below. *)

(** A row of the augmented matrix: the part under [A] and the part under [I]. *)
Abbreviation arow := (list Qc * list Qc)%type.

Definition arow_scale (c : Qc) (r : arow) : arow :=
  (vscale c (fst r), vscale c (snd r)).

Definition arow_sub (r p : arow) : arow :=
  (vsub (fst r) (fst p), vsub (snd r) (snd p)).

(** Clear entry [k] of row [r] with the pivot row [p], whose entry [k] is 1. *)
Definition eliminate (k : nat) (p r : arow) : arow :=
  arow_sub r (arow_scale (nth k (fst r) 0) p).

(** The first row whose entry [k] is not zero, and the remaining rows. *)
Fixpoint find_pivot (k : nat) (rs : list arow) : option (arow * list arow) :=
  match rs with
  | [] => None
  | r :: rs' =>
      if Qc_eq_dec (nth k (fst r) 0) 0 then
        match find_pivot k rs' with
        | Some (p, others) => Some (p, r :: others)
        | None => None
        end
      else Some (r, rs')
  end.

(** [done] holds the pivot rows of columns [0 .. length done - 1], in
    order; [todo] the rows that have not served as a pivot yet. *)
Fixpoint gauss_jordan (steps : nat) (done todo : list arow) : option (list arow) :=
  match steps with
  | O => Some done
  | S steps' =>
      let k := length done in
      match find_pivot k todo with
      | None => None
      | Some (p, others) =>
          let p' := arow_scale (/ nth k (fst p) 0) p in
          gauss_jordan steps' (map (eliminate k p') done ++ [p'])
                       (map (eliminate k p') others)
      end
  end.

Definition inverse_rows (n : nat) (A : list vec) : option (list vec) :=
  match gauss_jordan n [] (combine A (identity n)) with
  | Some done => Some (map snd done)
  | None => None
  end.

(** ** The part of numpy and Python the notebook uses *)

(** Python's [a / b] on integers: true division, raising on a zero divisor. *)
Definition py_truediv (a b : Z) : result Qc :=
  if (b =? 0)%Z then Raise ZeroDivisionError
  else Ok (Qc_of_Z a / Qc_of_Z b).

(** [range(n)]: empty for a negative [n]. *)
Definition range (n : Z) : list nat := seq 0 (Z.to_nat n).

Module np.

(** [np.zeros(n)] and [np.ones(n)] for a Python integer [n]. *)
Definition zeros (n : Z) : result vec :=
  if (n <? 0)%Z then Raise ValueError else Ok (repeat 0 (Z.to_nat n)).

Definition ones (n : Z) : result vec :=
  if (n <? 0)%Z then Raise ValueError else Ok (repeat 1 (Z.to_nat n)).

(** [np.column_stack([v, X])] for a 1-D [v] and a 2-D [X]. *)
Definition column_stack (v : vec) (X : ndarray) : result ndarray :=
  if length v =? shape0 X
  then Ok (Mat (S (ncols X)) (map (fun p => fst p :: snd p) (combine v (rows X))))
  else Raise ValueError.

(** [X.T] *)
Definition T (X : ndarray) : ndarray :=
  Mat (shape0 X) (cols (ncols X) (rows X)).

(** [A.dot(v)] for a 2-D [A] and a 1-D [v]: no broadcasting. *)
Definition dot_mv (A : ndarray) (v : vec) : result vec :=
  if shape1 A =? length v then Ok (mv (rows A) v) else Raise ValueError.

(** [A.dot(B)] for 2-D [A] and [B]. *)
Definition dot_mm (A B : ndarray) : result ndarray :=
  if shape1 A =? shape0 B
  then Ok (Mat (shape1 B) (mm (shape1 B) (rows A) (rows B)))
  else Raise ValueError.

(** [a - b] on 1-D arrays, with numpy's broadcasting of a length-1
    operand. *)
Definition sub (a b : vec) : result vec :=
  if length a =? length b then Ok (vsub a b)
  else match a, b with
       | [x], _ => Ok (map (fun y => x - y) b)
       | _, [y] => Ok (map (fun x => x - y) a)
       | _, _ => Raise ValueError
       end.

(** [c * a] for a scalar [c]. *)
Definition scale (c : Qc) (a : vec) : vec := vscale c a.

Definition square (a : vec) : vec := map (fun x => x * x) a.
Definition sum (a : vec) : Qc := vsum a.

(** [a[i] = c] *)
Fixpoint setitem (a : vec) (i : nat) (c : Qc) : result vec :=
  match a, i with
  | [], _ => Raise IndexError
  | _ :: a', O => Ok (c :: a')
  | x :: a', S i' => a'' <- setitem a' i' c ;; Ok (x :: a'')
  end.

Module linalg.

(** [np.linalg.inv(A)] *)
Definition inv (A : ndarray) : result ndarray :=
  if shape0 A =? shape1 A then
    match inverse_rows (shape0 A) (rows A) with
    | Some B => Ok (Mat (shape0 A) B)
    | None => Raise LinAlgError
    end
  else Raise LinAlgError.

End linalg.

End np.

(** [for i in idx: s = body(i, s)], stopping at the first exception. *)
Fixpoint for_loop {S : Type} (body : nat -> S -> result S)
         (idx : list nat) (s : S) : result S :=
  match idx with
  | [] => Ok s
  | i :: idx' => s' <- body i s ;; for_loop body idx' s'
  end.

(** ** The notebook *)

(** The two lines every function of the notebook starts with:
    [ones = np.ones(X.shape[0]); X = np.column_stack([ones, X])]. *)
Definition augment (X : ndarray) : result ndarray :=
  ones <- np.ones (Z.of_nat (shape0 X)) ;;
  np.column_stack ones X.

Module NormalEquation.

Definition multiple_linear_regression (X : ndarray) (y : vec) : result vec :=
  X <- augment X ;;
  XtX <- np.dot_mm (np.T X) X ;;
  XtX_inv <- np.linalg.inv XtX ;;
  P <- np.dot_mm XtX_inv (np.T X) ;;
  beta <- np.dot_mv P y ;;
  Ok beta.

Definition predict (X : ndarray) (beta : vec) : result vec :=
  X <- augment X ;;
  np.dot_mv X beta.

End NormalEquation.

Module GradientDescent.

Definition compute_cost (X : ndarray) (y theta : vec) : result Qc :=
  let m := Z.of_nat (length y) in
  predictions <- np.dot_mv X theta ;;
  c <- py_truediv 1 (2 * m) ;;
  d <- np.sub predictions y ;;
  Ok (c * np.sum (np.square d)).

(** One pass through the body of the loop, on the state
    [(theta, cost_history)]. *)
Definition gd_body (X : ndarray) (y : vec) (alpha : Qc) (m : Z)
           (i : nat) (s : vec * vec) : result (vec * vec) :=
  let '(theta, cost_history) := s in
  c <- py_truediv 1 m ;;
  p <- np.dot_mv X theta ;;
  r <- np.sub p y ;;
  g <- np.dot_mv (np.T X) r ;;
  let gradients := np.scale c g in
  theta <- np.sub theta (np.scale alpha gradients) ;;
  cost <- compute_cost X y theta ;;
  cost_history <- np.setitem cost_history i cost ;;
  Ok (theta, cost_history).

Definition gradient_descent (X : ndarray) (y : vec) (alpha : Qc)
           (num_iterations : Z) : result (vec * vec) :=
  let m := Z.of_nat (length y) in
  cost_history <- np.zeros num_iterations ;;
  X <- augment X ;;
  theta <- np.zeros (Z.of_nat (shape1 X)) ;;
  for_loop (gd_body X y alpha m) (range num_iterations) (theta, cost_history).

Definition predict (X : ndarray) (theta : vec) : result vec :=
  X <- augment X ;;
  np.dot_mv X theta.

End GradientDescent.


(** * Definitions used by the statements *)

(** ** Inverses and the invariant of the elimination *)

(** [B] is the inverse of the [n] by [n] matrix [A]. *)
Definition inverse_of (n : nat) (A B : list vec) : Prop :=
  length B = n /\ rect n B = true /\
  mm n B A = identity n /\ mm n A B = identity n.

(** Invariant of a row [(a, b)] of the augmented matrix during the
    elimination of the [n] by [n] matrix [A0]: [b * A0 = a]. *)
Definition row_ok (n : nat) (A0 : list vec) (r : arow) : Prop :=
  length (fst r) = n /\ length (snd r) = n /\ vecmat n (snd r) A0 = fst r.

(** The linear functional [r |-> <fst r, u> + <snd r, w>] on augmented
    rows: the elimination only ever replaces rows by combinations of rows,
    so whatever annihilates the current rows annihilates the initial ones. *)
Definition phi (u w : vec) (r : arow) : Qc :=
  dotp (fst r) u + dotp (snd r) w.

(** The loop invariant of [gauss_jordan]. *)
Record inv (n : nat) (A0 : list vec) (done todo : list arow) : Prop := {
  inv_rows : forall r, In r (done ++ todo) -> row_ok n A0 r;
  inv_done : forall i j, (i < length done)%nat -> (j < length done)%nat ->
             nth j (fst (nth i done ([], []))) 0 = if Nat.eqb j i then 1 else 0;
  inv_todo : forall r j, In r todo -> (j < length done)%nat ->
             nth j (fst r) 0 = 0;
  inv_ann : forall u w,
            (forall r, In r (done ++ todo) -> phi u w r = 0) ->
            forall r0, In r0 (combine A0 (identity n)) -> phi u w r0 = 0
}.

(** ** The closed form and the descent, as mathematics *)

(** The design matrix as the text describes it: the feature rows, each
    with a leading 1. *)
Definition design (F : ndarray) : list vec := map (cons 1) (rows F).

(** [X^T X] and the closed form [((X^T X)^-1 X^T) y] for a given inverse
    [B], written with the unchecked matrix operations. *)
Definition gram (n : nat) (X : list vec) : list vec := mm n (cols n X) X.

Definition normal_equation (n : nat) (X B : list vec) (y : vec) : vec :=
  mv (mm (length X) B (cols n X)) y.

(** The objective, the gradient and the update as the text states them:
    the cost [(1/(2m)) * sum (X theta - y)^2], the full-batch gradient
    [(1/m) * X^T (X theta - y)] and the step
    [theta <- theta - alpha * gradient], with [m] the number of targets. *)
Definition mse_cost (X : list vec) (y theta : vec) : Qc :=
  1 / Qc_of_nat (2 * length y) *
  vsum (map (fun d => d * d) (vsub (mv X theta) y)).

Definition gradient (n : nat) (X : list vec) (y theta : vec) : vec :=
  vscale (1 / Qc_of_nat (length y)) (mv (cols n X) (vsub (mv X theta) y)).

Definition gd_update (n : nat) (X : list vec) (y : vec) (alpha : Qc)
           (theta : vec) : vec :=
  vsub theta (vscale alpha (gradient n X y theta)).

(** The parameter vector after [k] updates from the all-zero start. *)
Definition theta_after (n : nat) (X : list vec) (y : vec) (alpha : Qc)
           (k : nat) : vec :=
  Nat.iter k (gd_update n X y alpha) (repeat 0 n).

(** The costs recorded along the first [k] updates. *)
Definition cost_trace (n : nat) (X : list vec) (y : vec) (alpha : Qc)
           (k : nat) : vec :=
  map (fun i => mse_cost X y (theta_after n X y alpha (S i))) (seq 0 k).

(** ** Evaluation on concrete data *)

(** Equality of rational vectors by evaluation. *)
Fixpoint vec_eqb (a b : vec) : bool :=
  match a, b with
  | [], [] => true
  | x :: a', y :: b' => Qc_eq_bool x y && vec_eqb a' b'
  | _, _ => false
  end.

Definition q (z : Z) : Qc := Qc_of_Z z.

(** [X = np.array([[0, 2], [2, 3], [3, 4], [4, 5]])], [y = np.array([3, 4, 6, 8])],
    [X_new = np.array([[1, 2], [2, 5]])], [alpha = 0.03]. *)
Definition X_example : ndarray :=
  Mat 2 [[q 0; q 2]; [q 2; q 3]; [q 3; q 4]; [q 4; q 5]].
Definition y_example : vec := [q 3; q 4; q 6; q 8].
Definition X_new : ndarray := Mat 2 [[q 1; q 2]; [q 2; q 5]].
Definition alpha_example : Qc := Q2Qc (3 # 100).


Definition tolerance : Qc := Q2Qc (1 # 1000000).


(** ** The same code over float64

    The definitions above compute with exact rationals.  The notebook's
    arrays hold IEEE 754 binary64 numbers, and some of its behaviour exists
    only there: overflow to infinity, NaN, and pivots that rounding makes
    zero or keeps from being zero.  Module [F64] is the same embedding,
    statement for statement, over Rocq's primitive binary64 floats, each
    operation rounded to nearest even as numpy's are.

    Two things the source does not fix are fixed here.  Sums of products
    ([dot], [np.sum]) are accumulated from left to right, one rounding per
    operation.  [np.linalg.inv] is LAPACK's [gesv] on the identity: an LU
    factorisation with partial pivoting, which reports a singular matrix
    exactly when a pivot is zero, followed by the two triangular solves; the
    model takes the unblocked algorithm.  The digits of a returned inverse
    depend on these choices; whether a pivot is exactly zero on the inputs
    used below does not. *)

Module F64.

Import PrimFloat.
Open Scope float_scope.

Abbreviation vec := (list float).

Record ndarray : Type := Mat { ncols : nat; rows : list vec }.

Definition shape0 (X : ndarray) : nat := length (rows X).
Definition shape1 (X : ndarray) : nat := ncols X.

Fixpoint zip_with (f : float -> float -> float) (a b : vec) : vec :=
  match a, b with
  | x :: a', y :: b' => f x y :: zip_with f a' b'
  | _, _ => []
  end.

Definition vsub (a b : vec) : vec := zip_with PrimFloat.sub a b.
Definition vscale (c : float) (a : vec) : vec := map (PrimFloat.mul c) a.

(** Sum and inner product, accumulated from the left. *)
Fixpoint sum_from (acc : float) (a : vec) : float :=
  match a with
  | [] => acc
  | x :: a' => sum_from (acc + x) a'
  end.

Fixpoint dotp_from (acc : float) (a b : vec) : float :=
  match a, b with
  | x :: a', y :: b' => dotp_from (acc + x * y) a' b'
  | _, _ => acc
  end.

Definition dotp (a b : vec) : float := dotp_from 0 a b.

Definition mv (A : list vec) (v : vec) : vec := map (fun r => dotp r v) A.

Definition col (j : nat) (A : list vec) : vec := map (fun r => nth j r 0) A.
Definition cols (n : nat) (A : list vec) : list vec :=
  map (fun j => col j A) (seq 0 n).

(** Entry [(i, j)] of [A B] is the inner product of row [i] of [A] with
    column [j] of [B]; [n] is the column count of [B]. *)
Definition mm (n : nat) (A B : list vec) : list vec :=
  map (fun a => map (dotp a) (cols n B)) A.

Definition unit (n i : nat) : vec :=
  map (fun j => if Nat.eqb j i then 1 else 0) (seq 0 n).
Definition identity (n : nat) : list vec := map (unit n) (seq 0 n).

(** *** LU factorisation with partial pivoting, and the solves *)

(** A row of [A | B]: the part under [A], the part under the right-hand
    side. *)
Abbreviation arow := (list float * list float)%type.

(** [r - l * p] on both parts. *)
Definition row_update (l : float) (p r : arow) : arow :=
  (zip_with (fun x y => x - l * y) (fst r) (fst p),
   zip_with (fun x y => x - l * y) (snd r) (snd p)).

(** Index of the first row whose entry [k] is largest in magnitude, among
    [rs], counting from [i]; [best] and [v] are the index and magnitude
    found so far. *)
Fixpoint argmax_abs (k : nat) (rs : list arow) (i best : nat) (v : float) : nat :=
  match rs with
  | [] => best
  | r :: rs' =>
      let w := abs (nth k (fst r) 0) in
      if v <? w then argmax_abs k rs' (S i) i w
      else argmax_abs k rs' (S i) best v
  end.

(** Exchange the first row with row [j]. *)
Definition swap_first (rs : list arow) (j : nat) : list arow :=
  match rs, j with
  | r0 :: rs', S j' =>
      nth j' rs' r0 :: firstn j' rs' ++ r0 :: skipn (S j') rs'
  | _, _ => rs
  end.

(** Forward elimination: [done] holds the rows of [U] found so far, with
    the right-hand side reduced alongside; [None] when a pivot is zero. *)
Fixpoint eliminate (steps : nat) (done todo : list arow) : option (list arow) :=
  match steps with
  | O => Some done
  | S steps' =>
      let k := length done in
      match todo with
      | [] => Some done
      | r0 :: rest =>
          let j := argmax_abs k rest 1 0 (abs (nth k (fst r0) 0)) in
          match swap_first todo j with
          | [] => Some done
          | p :: others =>
              let pivot := nth k (fst p) 0 in
              if pivot =? 0 then None
              else
                eliminate steps' (done ++ [p])
                  (map (fun r => row_update (nth k (fst r) 0 / pivot) p r)
                       others)
          end
      end
  end.

(** Back substitution, from the last row of [U] to the first: [solved]
    holds the rows of the solution below row [i], topmost first. *)
Fixpoint subtract_solved (k : nat) (u : vec) (acc : vec) (solved : list vec) : vec :=
  match solved with
  | [] => acc
  | x :: solved' =>
      let acc' := subtract_solved (S k) u acc solved' in
      zip_with (fun b y => b - nth k u 0 * y) acc' x
  end.

Fixpoint back_substitute (upper : list arow) (i : nat) (solved : list vec) : list vec :=
  match upper with
  | [] => solved
  | r :: upper' =>
      let acc := subtract_solved (S i) (fst r) (snd r) solved in
      let x := map (fun b => b / nth i (fst r) 0) acc in
      back_substitute upper' (Nat.pred i) (x :: solved)
  end.

Definition inverse_rows (n : nat) (A : list vec) : option (list vec) :=
  match eliminate n [] (combine A (identity n)) with
  | Some upper => Some (back_substitute (rev upper) (Nat.pred n) [])
  | None => None
  end.

(** Python's [a / b] on integers: true division, raising on a zero
    divisor.  The integers here are array lengths, far below [2^53], where
    the quotient of the converted floats is the correctly rounded
    quotient. *)
Definition of_Z (z : Z) : float := of_uint63 (Uint63Axioms.of_Z z).

Definition py_truediv (a b : Z) : result float :=
  if (b =? 0)%Z then Raise ZeroDivisionError
  else Ok (of_Z a / of_Z b).

Module np.

Definition zeros (n : Z) : result vec :=
  if (n <? 0)%Z then Raise ValueError else Ok (repeat 0 (Z.to_nat n)).

Definition ones (n : Z) : result vec :=
  if (n <? 0)%Z then Raise ValueError else Ok (repeat 1 (Z.to_nat n)).

Definition column_stack (v : vec) (X : ndarray) : result ndarray :=
  if Nat.eqb (length v) (shape0 X)
  then Ok (Mat (S (ncols X)) (map (fun p => fst p :: snd p) (combine v (rows X))))
  else Raise ValueError.

Definition T (X : ndarray) : ndarray :=
  Mat (shape0 X) (cols (ncols X) (rows X)).

Definition dot_mv (A : ndarray) (v : vec) : result vec :=
  if Nat.eqb (shape1 A) (length v) then Ok (mv (rows A) v) else Raise ValueError.

Definition dot_mm (A B : ndarray) : result ndarray :=
  if Nat.eqb (shape1 A) (shape0 B)
  then Ok (Mat (shape1 B) (mm (shape1 B) (rows A) (rows B)))
  else Raise ValueError.

Definition sub (a b : vec) : result vec :=
  if Nat.eqb (length a) (length b) then Ok (vsub a b)
  else match a, b with
       | [x], _ => Ok (map (fun y => x - y) b)
       | _, [y] => Ok (map (fun x => x - y) a)
       | _, _ => Raise ValueError
       end.

Definition scale (c : float) (a : vec) : vec := vscale c a.

Definition square (a : vec) : vec := map (fun x => x * x) a.
Definition sum (a : vec) : float := sum_from 0 a.

Fixpoint setitem (a : vec) (i : nat) (c : float) : result vec :=
  match a, i with
  | [], _ => Raise IndexError
  | _ :: a', O => Ok (c :: a')
  | x :: a', S i' => a'' <- setitem a' i' c ;; Ok (x :: a'')
  end.

Module linalg.

Definition inv (A : ndarray) : result ndarray :=
  if Nat.eqb (shape0 A) (shape1 A) then
    match inverse_rows (shape0 A) (rows A) with
    | Some B => Ok (Mat (shape0 A) B)
    | None => Raise LinAlgError
    end
  else Raise LinAlgError.

End linalg.

End np.

Definition augment (X : ndarray) : result ndarray :=
  ones <- np.ones (Z.of_nat (shape0 X)) ;;
  np.column_stack ones X.

Module NormalEquation.

Definition multiple_linear_regression (X : ndarray) (y : vec) : result vec :=
  X <- augment X ;;
  XtX <- np.dot_mm (np.T X) X ;;
  XtX_inv <- np.linalg.inv XtX ;;
  P <- np.dot_mm XtX_inv (np.T X) ;;
  beta <- np.dot_mv P y ;;
  Ok beta.

Definition predict (X : ndarray) (beta : vec) : result vec :=
  X <- augment X ;;
  np.dot_mv X beta.

End NormalEquation.

Module GradientDescent.

Definition compute_cost (X : ndarray) (y theta : vec) : result float :=
  let m := Z.of_nat (length y) in
  predictions <- np.dot_mv X theta ;;
  c <- py_truediv 1 (2 * m) ;;
  d <- np.sub predictions y ;;
  Ok (c * np.sum (np.square d)).

Definition gd_body (X : ndarray) (y : vec) (alpha : float) (m : Z)
           (i : nat) (s : vec * vec) : result (vec * vec) :=
  let '(theta, cost_history) := s in
  c <- py_truediv 1 m ;;
  p <- np.dot_mv X theta ;;
  r <- np.sub p y ;;
  g <- np.dot_mv (np.T X) r ;;
  let gradients := np.scale c g in
  theta <- np.sub theta (np.scale alpha gradients) ;;
  cost <- compute_cost X y theta ;;
  cost_history <- np.setitem cost_history i cost ;;
  Ok (theta, cost_history).

Definition gradient_descent (X : ndarray) (y : vec) (alpha : float)
           (num_iterations : Z) : result (vec * vec) :=
  let m := Z.of_nat (length y) in
  cost_history <- np.zeros num_iterations ;;
  X <- augment X ;;
  theta <- np.zeros (Z.of_nat (shape1 X)) ;;
  for_loop (gd_body X y alpha m) (range num_iterations) (theta, cost_history).

End GradientDescent.

(** The design matrix, as rows. *)
Definition design (F : ndarray) : list vec := map (cons 1) (rows F).

(** [X^T X] and [(B X^T) y], each entry an inner product accumulated in
    float64; [n] is the column count of [X]. *)
Definition gram (n : nat) (X : list vec) : list vec := mm n (cols n X) X.
Definition normal_equation (n : nat) (X B : list vec) (y : vec) : vec :=
  mv (mm (length X) B (cols n X)) y.

(** *** Data and predicates *)

(** The notebook's data as float64 arrays. *)
Definition X_example : ndarray := Mat 2 [[0; 2]; [2; 3]; [3; 4]; [4; 5]].
Definition y_example : vec := [3; 4; 6; 8].
Definition X_new : ndarray := Mat 2 [[1; 2]; [2; 5]].

(** The float64 nearest to 0.03, the notebook's learning rate. *)
Definition alpha_example : float := 0x1.eb851eb851eb8p-6.

(** A feature matrix whose [X^T X] is invertible over the reals but not
    after rounding: rows [1e8] and [1e8 + 1]. *)
Definition X_close : ndarray := Mat 1 [[100000000]; [100000001]].
Definition y_close : vec := [0; 1].

(** A design matrix (leading 1) with one row whose two features are
    [2^1023] and [-2^1023], and coefficients that double them. *)
Definition X_huge : ndarray := Mat 3 [[1; 0x1p+1023; -0x1p+1023]].
Definition theta_huge : vec := [0; 2; 2].

(** The sign bit of a float is clear, or the float is NaN. *)
Definition sf_sign_clear (f : SpecFloat.spec_float) : bool :=
  match f with
  | SpecFloat.S754_nan => true
  | SpecFloat.S754_zero s => negb s
  | SpecFloat.S754_infinity s => negb s
  | SpecFloat.S754_finite s _ _ => negb s
  end.

Definition sign_clear (x : float) : bool :=
  sf_sign_clear (FloatOps.Prim2SF x).

(** The values the specification gives for that data: the tolerance
    [1e-6], the exact fit and its predictions. *)
Definition tolerance : float := 0x1.0c6f7a0b5ed8dp-20.
Definition beta_expected : vec := [-3; -1; 3].
Definition predictions_expected : vec := [2; 10].

(** Entry by entry within [tol] of each other. *)
Definition close (tol : float) (a b : vec) : bool :=
  Nat.eqb (length a) (length b) &&
  forallb (fun p => abs (fst p - snd p) <=? tol) (combine a b).

(** What [c >= 0 or isnan(c)] says in Python. *)
Definition never_negative (c : float) : Prop :=
  is_nan c = true \/ (0 <=? c) = true.

End F64.

(** The rows [1e8] and [1e8 + 1] and the targets [0, 1] as exact
    rationals. *)
Definition X_close : ndarray :=
  Mat 1 [[Qc_of_Z 100000000]; [Qc_of_Z 100000001]].
Definition y_close : vec := [Qc_of_Z 0; Qc_of_Z 1].

(** * Vector algebra on lists *)

Lemma zip_with_length (f : Qc -> Qc -> Qc) (a b : vec) :
  length a = length b -> length (zip_with f a b) = length a.
Proof.
  revert b; induction a as [|x a IH]; intros [|y b] H; simpl in *; try congruence.
  f_equal; apply IH; congruence.
Qed.

Lemma vscale_length (c : Qc) (a : vec) : length (vscale c a) = length a.
Proof. apply length_map. Qed.

Lemma nth_vscale (c : Qc) (a : vec) (j : nat) :
  nth j (vscale c a) 0 = c * nth j a 0.
Proof.
  revert j; induction a as [|x a IH]; intros [|j]; simpl; try ring; auto.
Qed.

Lemma nth_vadd (a b : vec) (j : nat) :
  length a = length b -> nth j (vadd a b) 0 = nth j a 0 + nth j b 0.
Proof.
  revert b j; induction a as [|x a IH]; intros [|y b] [|j] H; simpl in *;
    try congruence; try ring.
  apply IH; congruence.
Qed.

Lemma nth_vsub (a b : vec) (j : nat) :
  length a = length b -> nth j (vsub a b) 0 = nth j a 0 - nth j b 0.
Proof.
  revert b j; induction a as [|x a IH]; intros [|y b] [|j] H; simpl in *;
    try congruence; try ring.
  apply IH; congruence.
Qed.

Lemma vec_ext (a b : vec) :
  length a = length b ->
  (forall j, (j < length a)%nat -> nth j a 0 = nth j b 0) -> a = b.
Proof. intros; now apply nth_ext with (d := 0) (d' := 0). Qed.

Lemma rect_Forall (n : nat) (A : list vec) :
  rect n A = true <-> Forall (fun r => length r = n) A.
Proof.
  unfold rect; rewrite forallb_forall, Forall_forall.
  split; intros H r Hr; specialize (H r Hr); now apply Nat.eqb_eq.
Qed.

Lemma rect_In (n : nat) (A : list vec) (r : vec) :
  rect n A = true -> In r A -> length r = n.
Proof. rewrite rect_Forall, Forall_forall; auto. Qed.

Lemma rect_cons (n : nat) (r : vec) (A : list vec) :
  rect n (r :: A) = true <-> length r = n /\ rect n A = true.
Proof. simpl; rewrite andb_true_iff, Nat.eqb_eq; tauto. Qed.

(** ** Inner product *)

Lemma dotp_nil_r (a : vec) : dotp a [] = 0.
Proof. now destruct a. Qed.

Lemma dotp_comm (a b : vec) : dotp a b = dotp b a.
Proof.
  revert b; induction a as [|x a IH]; intros [|y b]; simpl; auto.
  rewrite IH; ring.
Qed.

Lemma dotp_vscale (c : Qc) (a v : vec) : dotp (vscale c a) v = c * dotp a v.
Proof.
  revert v; induction a as [|x a IH]; intros [|y v]; simpl; try ring.
  unfold vscale in IH; rewrite IH; ring.
Qed.

Lemma dotp_vadd (a b v : vec) :
  length a = length b -> dotp (vadd a b) v = dotp a v + dotp b v.
Proof.
  revert b v; induction a as [|x a IH]; intros [|y b] [|z v] H; simpl in *;
    try congruence; try ring.
  unfold vadd in IH; rewrite IH by congruence; ring.
Qed.

Lemma dotp_vsub (a b v : vec) :
  length a = length b -> dotp (vsub a b) v = dotp a v - dotp b v.
Proof.
  revert b v; induction a as [|x a IH]; intros [|y b] [|z v] H; simpl in *;
    try congruence; try ring.
  unfold vsub in IH; rewrite IH by congruence; ring.
Qed.

Lemma dotp_zeros_l (n : nat) (v : vec) : dotp (repeat 0 n) v = 0.
Proof.
  revert v; induction n as [|n IH]; intros [|y v]; simpl; auto.
  rewrite IH; ring.
Qed.

Lemma dotp_app (a1 a2 b1 b2 : vec) :
  length a1 = length b1 ->
  dotp (a1 ++ a2) (b1 ++ b2) = dotp a1 b1 + dotp a2 b2.
Proof.
  revert b1; induction a1 as [|x a1 IH]; intros [|y b1] H; simpl in *;
    try congruence; try ring.
  rewrite IH by congruence; ring.
Qed.

(** The inner product with a unit vector picks one entry. *)
Lemma dotp_delta (i s k : nat) (w : vec) :
  length w = k ->
  dotp (map (fun j => if Nat.eqb j i then 1 else 0) (seq s k)) w =
  if (s <=? i) && (i <? s + k) then nth (i - s) w 0 else 0.
Proof.
  revert s w; induction k as [|k IH]; intros s w H; simpl.
  - destruct (s <=? i) eqn:E1, (i <? s + 0) eqn:E2; simpl; auto.
    apply Nat.leb_le in E1; apply Nat.ltb_lt in E2; lia.
  - destruct w as [|y w]; simpl in H; [discriminate|].
    rewrite IH by congruence.
    destruct (Nat.eqb_spec s i) as [->|Hne].
    + rewrite Nat.leb_refl, Nat.sub_diag.
      replace (i <? i + S k) with true by (symmetry; apply Nat.ltb_lt; lia).
      replace (S i <=? i) with false by (symmetry; apply Nat.leb_gt; lia).
      simpl; ring.
    + destruct (s <=? i) eqn:E1.
      * apply Nat.leb_le in E1.
        replace (S s <=? i) with true by (symmetry; apply Nat.leb_le; lia).
        replace (i <? S s + k) with (i <? s + S k)
          by (f_equal; lia).
        destruct (i <? s + S k); simpl; [|ring].
        replace (i - s)%nat with (S (i - S s)) by lia. simpl; ring.
      * apply Nat.leb_gt in E1.
        replace (S s <=? i) with false by (symmetry; apply Nat.leb_gt; lia).
        simpl; ring.
Qed.

Lemma unit_length (n i : nat) : length (unit n i) = n.
Proof. unfold unit; now rewrite length_map, length_seq. Qed.

Lemma nth_map_lt {A B : Type} (f : A -> B) (l : list A) (j : nat) (d : A) (d' : B) :
  (j < length l)%nat -> nth j (map f l) d' = f (nth j l d).
Proof.
  revert j; induction l as [|x l IH]; intros [|j] H; simpl in *; try lia; auto.
  apply IH; lia.
Qed.

Lemma nth_unit (n i j : nat) :
  (j < n)%nat -> nth j (unit n i) 0 = if Nat.eqb j i then 1 else 0.
Proof.
  intros Hj; unfold unit.
  rewrite nth_map_lt with (d := O) by now rewrite length_seq.
  now rewrite seq_nth.
Qed.

Lemma dotp_unit_l (n i : nat) (w : vec) :
  length w = n -> (i < n)%nat -> dotp (unit n i) w = nth i w 0.
Proof.
  intros Hw Hi; unfold unit; rewrite dotp_delta by assumption.
  simpl. replace (i <? n) with true by (symmetry; now apply Nat.ltb_lt).
  now rewrite Nat.sub_0_r.
Qed.

(** ** Row vector times matrix *)

Lemma vecmat_length (n : nat) (a : vec) (M : list vec) :
  rect n M = true -> length (vecmat n a M) = n.
Proof.
  revert a; induction M as [|r M IH]; intros [|x a] H; simpl;
    try apply repeat_length.
  apply rect_cons in H as [Hr HM].
  unfold vadd; rewrite zip_with_length; rewrite vscale_length; auto.
  now rewrite IH.
Qed.

(** Entry [j] of [a * M] is the inner product of [a] with column [j] of
    [M]: the entry-wise definition of the matrix product. *)
Lemma nth_vecmat (n : nat) (a : vec) (M : list vec) (j : nat) :
  rect n M = true -> nth j (vecmat n a M) 0 = dotp a (col j M).
Proof.
  revert a; induction M as [|r M IH]; intros [|x a] H; simpl;
    try (now rewrite nth_repeat).
  apply rect_cons in H as [Hr HM].
  rewrite nth_vadd, nth_vscale, IH; auto.
  now rewrite vscale_length, vecmat_length.
Qed.

Lemma vecmat_vadd (n : nat) (a b : vec) (M : list vec) :
  rect n M = true -> length a = length b ->
  vecmat n (vadd a b) M = vadd (vecmat n a M) (vecmat n b M).
Proof.
  intros HM Hab; apply vec_ext.
  - unfold vadd at 2; rewrite zip_with_length; now rewrite !vecmat_length.
  - intros j _. rewrite nth_vadd by now rewrite !vecmat_length.
    rewrite !nth_vecmat by assumption. now apply dotp_vadd.
Qed.

Lemma vecmat_vsub (n : nat) (a b : vec) (M : list vec) :
  rect n M = true -> length a = length b ->
  vecmat n (vsub a b) M = vsub (vecmat n a M) (vecmat n b M).
Proof.
  intros HM Hab; apply vec_ext.
  - unfold vsub at 2; rewrite zip_with_length; now rewrite !vecmat_length.
  - intros j _. rewrite nth_vsub by now rewrite !vecmat_length.
    rewrite !nth_vecmat by assumption. now apply dotp_vsub.
Qed.

Lemma vecmat_vscale (n : nat) (c : Qc) (a : vec) (M : list vec) :
  rect n M = true -> vecmat n (vscale c a) M = vscale c (vecmat n a M).
Proof.
  intros HM; apply vec_ext.
  - now rewrite vscale_length, !vecmat_length.
  - intros j _. rewrite nth_vscale, !nth_vecmat by assumption.
    apply dotp_vscale.
Qed.

Lemma vecmat_zeros (n k : nat) (M : list vec) :
  rect n M = true -> vecmat n (repeat 0 k) M = repeat 0 n.
Proof.
  intros HM; apply vec_ext.
  - now rewrite vecmat_length, repeat_length.
  - intros j _. rewrite nth_vecmat, nth_repeat by assumption.
    apply dotp_zeros_l.
Qed.

Lemma rect_mm (n : nat) (A B : list vec) :
  rect n B = true -> rect n (mm n A B) = true.
Proof.
  intros HB; apply rect_Forall, Forall_forall; intros r Hr.
  apply in_map_iff in Hr as (a & <- & _). now apply vecmat_length.
Qed.

Lemma vecmat_assoc (n p : nat) (a : vec) (B C : list vec) :
  rect n B = true -> rect p C = true ->
  vecmat p (vecmat n a B) C = vecmat p a (mm p B C).
Proof.
  intros HB HC; revert a HB; induction B as [|r B IH]; intros [|x a] HB; simpl;
    try now apply vecmat_zeros.
  apply rect_cons in HB as [Hr HB].
  rewrite vecmat_vadd, vecmat_vscale, IH; auto.
  now rewrite vscale_length, vecmat_length.
Qed.

Lemma mm_assoc (n p : nat) (A B C : list vec) :
  rect n B = true -> rect p C = true ->
  mm p (mm n A B) C = mm p A (mm p B C).
Proof.
  intros HB HC; unfold mm at 1 2 3; rewrite map_map.
  apply map_ext; intros a. now apply vecmat_assoc.
Qed.

(** ** The identity matrix *)

Lemma identity_length (n : nat) : length (identity n) = n.
Proof. unfold identity; now rewrite length_map, length_seq. Qed.

Lemma rect_identity (n : nat) : rect n (identity n) = true.
Proof.
  apply rect_Forall, Forall_forall; intros r Hr.
  apply in_map_iff in Hr as (i & <- & _). apply unit_length.
Qed.

Lemma col_identity (n j : nat) : col j (identity n) = unit n j.
Proof.
  unfold col, identity, unit. rewrite map_map.
  apply map_ext_in; intros i Hi. apply in_seq in Hi.
  destruct (Nat.lt_ge_cases j n) as [Hj|Hj].
  - rewrite nth_map_lt with (d := O) by now rewrite length_seq.
    rewrite seq_nth by assumption. simpl. now rewrite Nat.eqb_sym.
  - rewrite nth_overflow by (rewrite length_map, length_seq; lia).
    replace (i =? j) with false; auto.
    symmetry; apply Nat.eqb_neq; lia.
Qed.

Lemma vecmat_unit (n k i : nat) (M : list vec) :
  length M = k -> rect n M = true -> (i < k)%nat ->
  vecmat n (unit k i) M = nth i M [].
Proof.
  intros Hk HM Hi.
  assert (Hlen : length (nth i M []) = n)
    by (apply rect_In with (A := M); auto; apply nth_In; lia).
  apply vec_ext.
  - now rewrite vecmat_length.
  - intros j _. rewrite nth_vecmat by assumption.
    rewrite dotp_unit_l; auto.
    + unfold col. now rewrite nth_map_lt with (d := []) by lia.
    + unfold col. now rewrite length_map.
Qed.

Lemma vecmat_identity (n : nat) (b : vec) :
  length b = n -> vecmat n b (identity n) = b.
Proof.
  intros Hb; apply vec_ext.
  - rewrite vecmat_length; auto using rect_identity.
  - intros j Hj. rewrite vecmat_length in Hj by apply rect_identity.
    rewrite nth_vecmat by apply rect_identity.
    rewrite col_identity, dotp_comm. now apply dotp_unit_l.
Qed.

Lemma map_nth_seq (M : list vec) :
  map (fun i => nth i M []) (seq 0 (length M)) = M.
Proof.
  apply nth_ext with (d := []) (d' := []).
  - now rewrite length_map, length_seq.
  - intros i Hi. rewrite length_map, length_seq in Hi.
    rewrite nth_map_lt with (d := O) by now rewrite length_seq.
    now rewrite seq_nth.
Qed.

Lemma mm_identity_l (n : nat) (B : list vec) :
  rect n B = true -> mm n (identity (length B)) B = B.
Proof.
  intros HB. unfold mm, identity. rewrite map_map.
  etransitivity; [|apply map_nth_seq].
  apply map_ext_in; intros i Hi. apply in_seq in Hi.
  apply vecmat_unit; auto; lia.
Qed.

Lemma mm_identity_r (n : nat) (B : list vec) :
  rect n B = true -> mm n B (identity n) = B.
Proof.
  intros HB. unfold mm. rewrite <- (map_id B) at 2.
  apply map_ext_in; intros b Hb.
  apply vecmat_identity. now apply rect_In with (A := B).
Qed.

(** ** Inverse matrices *)

(** A left inverse equals any two-sided inverse. *)
Lemma left_inverse_unique (n : nat) (A B B' : list vec) :
  length A = n -> rect n A = true ->
  length B = n -> rect n B = true ->
  mm n B A = identity n -> inverse_of n A B' -> B = B'.
Proof.
  intros HlA HA HlB HB HBA (HlB' & HB' & _ & HAB').
  rewrite <- (mm_identity_r n B) by assumption.
  rewrite <- HAB', <- (mm_assoc n n B A B') by assumption.
  rewrite HBA, <- HlB'. apply mm_identity_l. now rewrite HlB'.
Qed.

(** * Correctness of the elimination *)

Lemma find_pivot_some (k : nat) (rs : list arow) (p : arow) (others : list arow) :
  find_pivot k rs = Some (p, others) ->
  nth k (fst p) 0 <> 0 /\ In p rs /\ incl others rs /\
  length rs = S (length others) /\
  (forall r, In r rs -> r = p \/ In r others).
Proof.
  revert p others; induction rs as [|r rs IH]; intros p others H; simpl in H.
  - discriminate.
  - destruct (Qc_eq_dec (nth k (fst r) 0) 0) as [Hz|Hnz].
    + destruct (find_pivot k rs) as [[p0 o0]|] eqn:E; [|discriminate].
      injection H as <- <-.
      destruct (IH _ _ eq_refl) as (H1 & H2 & H3 & H4 & H5).
      repeat split; simpl; auto.
      * intros x [->|Hx]; [now left | right; now apply H3].
      * intros x [->|Hx]; [right; now left|].
        destruct (H5 x Hx); [now left | right; now right].
    + injection H as <- <-.
      repeat split; simpl; auto.
      * intros x Hx; now right.
      * intros x [->|Hx]; auto.
Qed.

Lemma find_pivot_none (k : nat) (rs : list arow) :
  find_pivot k rs = None -> forall r, In r rs -> nth k (fst r) 0 = 0.
Proof.
  induction rs as [|r0 rs IH]; simpl; intros H r Hr; [contradiction|].
  destruct (Qc_eq_dec (nth k (fst r0) 0) 0) as [Hz|Hnz]; [|discriminate].
  destruct (find_pivot k rs) as [[p0 o0]|] eqn:E; [discriminate|].
  destruct Hr as [<-|Hr]; auto.
Qed.

Lemma nth_split (a : vec) (k : nat) :
  (k < length a)%nat -> a = firstn k a ++ nth k a 0 :: skipn (S k) a.
Proof.
  revert k; induction a as [|x a IH]; intros [|k] H; simpl in *; try lia; auto.
  f_equal. apply IH; lia.
Qed.

Lemma Qc_minus_one_neq_0 : - (1) <> 0.
Proof. intros H; apply (f_equal this) in H; vm_compute in H; discriminate. Qed.

Section GaussJordan.

Variable n : nat.
Variable A0 : list vec.
Hypothesis A0_rect : rect n A0 = true.

Lemma row_ok_scale (c : Qc) (r : arow) : row_ok n A0 r -> row_ok n A0 (arow_scale c r).
Proof.
  intros (Ha & Hb & H); unfold row_ok, arow_scale; simpl.
  rewrite !vscale_length, vecmat_vscale, H; auto.
Qed.

Lemma row_ok_sub (r p : arow) : row_ok n A0 r -> row_ok n A0 p -> row_ok n A0 (arow_sub r p).
Proof.
  intros (Ha & Hb & H) (Ha' & Hb' & H'); unfold row_ok, arow_sub, vsub; simpl.
  rewrite !zip_with_length by congruence.
  repeat split; auto.
  fold (vsub (snd r) (snd p)); rewrite vecmat_vsub by congruence.
  now rewrite H, H'.
Qed.

Lemma row_ok_eliminate (k : nat) (p r : arow) :
  row_ok n A0 p -> row_ok n A0 r -> row_ok n A0 (eliminate k p r).
Proof. intros Hp Hr; apply row_ok_sub; auto using row_ok_scale. Qed.

Lemma nth_eliminate (k j : nat) (p r : arow) :
  row_ok n A0 p -> row_ok n A0 r ->
  nth j (fst (eliminate k p r)) 0 =
  nth j (fst r) 0 - nth k (fst r) 0 * nth j (fst p) 0.
Proof.
  intros (Ha & _) (Ha' & _); unfold eliminate, arow_sub, arow_scale; simpl.
  rewrite nth_vsub by (rewrite vscale_length; congruence).
  now rewrite nth_vscale.
Qed.

Lemma phi_scale (u w : vec) (c : Qc) (r : arow) :
  phi u w (arow_scale c r) = c * phi u w r.
Proof. unfold phi, arow_scale; simpl. rewrite !dotp_vscale. ring. Qed.

Lemma phi_eliminate (u w : vec) (k : nat) (p r : arow) :
  row_ok n A0 p -> row_ok n A0 r ->
  phi u w (eliminate k p r) = phi u w r - nth k (fst r) 0 * phi u w p.
Proof.
  intros (Ha & Hb & _) (Ha' & Hb' & _).
  unfold phi, eliminate, arow_sub, arow_scale; simpl.
  rewrite !dotp_vsub by (rewrite vscale_length; congruence).
  rewrite !dotp_vscale. ring.
Qed.

Lemma inv_init : length A0 = n -> inv n A0 [] (combine A0 (identity n)).
Proof.
  intros HlA.
  assert (Hnth : forall i, (i < n)%nat ->
            nth i (combine A0 (identity n)) ([], []) = (nth i A0 [], unit n i)).
  { intros i Hi. rewrite combine_nth by now rewrite identity_length.
    f_equal. unfold identity.
    rewrite nth_map_lt with (d := O) by now rewrite length_seq.
    now rewrite seq_nth. }
  assert (Hlen : length (combine A0 (identity n)) = n)
    by (rewrite length_combine, identity_length; lia).
  split; cbn [app length].
  - intros r Hr. apply In_nth with (d := ([], [])) in Hr as (i & Hi & <-).
    rewrite Hlen in Hi. rewrite Hnth by assumption.
    unfold row_ok; simpl; repeat split.
    + apply rect_In with (A := A0); auto. apply nth_In; lia.
    + apply unit_length.
    + apply vecmat_unit; auto.
  - intros; lia.
  - intros; lia.
  - intros u w H r0 Hr0. now apply H.
Qed.

Lemma inv_step (done todo others : list arow) (p : arow) :
  inv n A0 done todo ->
  find_pivot (length done) todo = Some (p, others) ->
  inv n A0 (map (eliminate (length done)
              (arow_scale (/ nth (length done) (fst p) 0) p)) done ++
       [arow_scale (/ nth (length done) (fst p) 0) p])
      (map (eliminate (length done)
              (arow_scale (/ nth (length done) (fst p) 0) p)) others).
Proof.
  intros [Hrows Hdone Htodo Hker] Hfp.
  destruct (find_pivot_some _ _ _ _ Hfp) as (Hc & Hp & Hincl & _ & Hcases).
  set (k := length done) in *.
  set (p' := arow_scale (/ nth k (fst p) 0) p) in *.
  assert (Hokp : row_ok n A0 p) by (apply Hrows, in_or_app; now right).
  assert (Hokp' : row_ok n A0 p') by now apply row_ok_scale.
  assert (Hp'k : nth k (fst p') 0 = 1).
  { unfold p', arow_scale; simpl. rewrite nth_vscale.
    now apply Qcmult_inv_l. }
  assert (Hp'j : forall j, (j < k)%nat -> nth j (fst p') 0 = 0).
  { intros j Hj. unfold p', arow_scale; simpl. rewrite nth_vscale.
    rewrite (Htodo p j Hp Hj). ring. }
  assert (Hokd : forall r, In r done -> row_ok n A0 r)
    by (intros; apply Hrows, in_or_app; now left).
  assert (Hoko : forall r, In r others -> row_ok n A0 r)
    by (intros; apply Hrows, in_or_app; right; now apply Hincl).
  assert (Hlen : length (map (eliminate k p') done ++ [p']) = S k)
    by (rewrite length_app, length_map; simpl; fold k; lia).
  split.
  - intros r Hr. rewrite <- app_assoc in Hr.
    apply in_app_or in Hr as [Hr|Hr].
    + apply in_map_iff in Hr as (r0 & <- & Hr0).
      apply row_ok_eliminate; auto.
    + destruct Hr as [<-|Hr]; auto.
      apply in_map_iff in Hr as (r0 & <- & Hr0).
      apply row_ok_eliminate; auto.
  - rewrite Hlen. intros i j Hi Hj.
    destruct (Nat.eq_dec i k) as [->|Hik].
    + rewrite app_nth2 by (rewrite length_map; fold k; lia).
      rewrite length_map; fold k; rewrite Nat.sub_diag; simpl.
      destruct (Nat.eqb_spec j k) as [->|Hjk]; auto.
      apply Hp'j; lia.
    + rewrite app_nth1 by (rewrite length_map; fold k; lia).
      rewrite nth_map_lt with (d := ([], [])) by (fold k; lia).
      assert (Hin : In (nth i done ([], [])) done)
        by (apply nth_In; fold k; lia).
      rewrite nth_eliminate by auto.
      destruct (Nat.eq_dec j k) as [->|Hjk].
      * rewrite Hp'k.
        replace (k =? i) with false by (symmetry; apply Nat.eqb_neq; lia).
        ring.
      * rewrite Hp'j by lia. rewrite Hdone by (fold k; lia). ring.
  - rewrite Hlen. intros r j Hr Hj.
    apply in_map_iff in Hr as (r0 & <- & Hr0).
    rewrite nth_eliminate by auto.
    destruct (Nat.eq_dec j k) as [->|Hjk].
    + rewrite Hp'k; ring.
    + rewrite Hp'j by lia.
      rewrite (Htodo r0 j) by (auto; fold k; lia). ring.
  - intros u w H r0 Hr0.
    assert (Hp'v : phi u w p' = 0)
      by (apply H, in_or_app; left; apply in_or_app; right; now left).
    assert (Hpv : phi u w p = 0).
    { unfold p' in Hp'v. rewrite phi_scale in Hp'v.
      apply Qcmult_integral in Hp'v as [Hinv|]; auto.
      exfalso. apply Q_apart_0_1.
      rewrite <- (Qcmult_inv_l _ Hc), Hinv. ring. }
    assert (Helim : forall r, row_ok n A0 r ->
              phi u w (eliminate k p' r) = 0 -> phi u w r = 0).
    { intros r Hr E. rewrite phi_eliminate, Hp'v in E by auto.
      rewrite <- E; ring. }
    apply (Hker u w); auto.
    intros r Hr. apply in_app_or in Hr as [Hr|Hr].
    + apply Helim; auto.
      apply H, in_or_app; left; apply in_or_app; left. now apply in_map.
    + destruct (Hcases r Hr) as [->|Hro]; auto.
      apply Helim; auto.
      apply H, in_or_app; right. now apply in_map.
Qed.

Lemma gauss_jordan_inv (steps : nat) :
  forall done todo res,
    inv n A0 done todo -> gauss_jordan steps done todo = Some res ->
    exists todo', inv n A0 res todo' /\
      length res = (length done + steps)%nat /\
      (length todo' + steps = length todo)%nat.
Proof.
  induction steps as [|steps IH]; intros done todo res Hinv H; simpl in H.
  - injection H as <-. exists todo; split; [assumption|split; lia].
  - destruct (find_pivot (length done) todo) as [[p others]|] eqn:E;
      [|discriminate].
    apply IH in H; [|eapply inv_step; eassumption].
    destruct H as (todo' & Hinv' & Hlen & Hlen'). exists todo'.
    destruct (find_pivot_some _ _ _ _ E) as (_ & _ & _ & Hl & _).
    rewrite length_app, !length_map in *; simpl in *.
    split; [assumption|split; lia].
Qed.

(** Once every column has its pivot, the left part is the identity. *)
Lemma inv_final_fst (res todo : list arow) :
  inv n A0 res todo -> length res = n -> map fst res = identity n.
Proof.
  intros [Hrows Hdone _ _] Hlen.
  apply nth_ext with (d := []) (d' := []).
  - now rewrite length_map, identity_length.
  - intros i Hi. rewrite length_map in Hi.
    rewrite nth_map_lt with (d := ([], [])) by assumption.
    unfold identity.
    rewrite nth_map_lt with (d := O) by (rewrite length_seq; lia).
    rewrite seq_nth by lia. simpl.
    destruct (Hrows (nth i res ([], []))) as (Ha & _);
      [apply in_or_app; left; now apply nth_In|].
    apply vec_ext; [now rewrite unit_length|].
    intros j Hj. rewrite Hdone, nth_unit by lia. reflexivity.
Qed.

(** The right part is then a left inverse of [A0] ... *)
Lemma inv_final_left (res todo : list arow) :
  inv n A0 res todo -> length res = n ->
  rect n (map snd res) = true /\ mm n (map snd res) A0 = identity n.
Proof.
  intros Hinv Hlen.
  pose proof (inv_final_fst _ _ Hinv Hlen) as Hfst.
  destruct Hinv as [Hrows _ _ _].
  assert (Hok : forall r, In r res -> row_ok n A0 r)
    by (intros; apply Hrows, in_or_app; now left).
  split.
  - apply rect_Forall, Forall_forall; intros b Hb.
    apply in_map_iff in Hb as (r & <- & Hr). now apply Hok.
  - rewrite <- Hfst. unfold mm. rewrite map_map.
    apply map_ext_in; intros r Hr. now apply Hok.
Qed.

(** ... and a right inverse as well. *)
Lemma inv_final_right (res : list arow) :
  length A0 = n -> inv n A0 res [] -> length res = n ->
  mm n A0 (map snd res) = identity n.
Proof.
  intros HlA Hinv Hlen.
  pose proof (inv_final_fst _ _ Hinv Hlen) as Hfst.
  destruct (inv_final_left _ _ Hinv Hlen) as (HB & _).
  destruct Hinv as [Hrows _ _ Hann]. rewrite app_nil_r in *.
  set (B := map snd res) in *.
  apply nth_ext with (d := []) (d' := []).
  - unfold mm. now rewrite length_map, identity_length.
  - intros i Hi. unfold mm in Hi; rewrite length_map, HlA in Hi.
    unfold mm, identity.
    rewrite nth_map_lt with (d := []) by lia.
    rewrite nth_map_lt with (d := O) by (rewrite length_seq; lia).
    rewrite seq_nth by lia. simpl.
    apply vec_ext; [now rewrite vecmat_length, unit_length|].
    intros l Hl. rewrite vecmat_length in Hl by assumption.
    rewrite nth_vecmat, nth_unit by assumption.
    assert (Hcur : forall r, In r res ->
              phi (col l B) (vscale (- (1)) (unit n l)) r = 0).
    { intros r Hr. apply In_nth with (d := ([], [])) in Hr as (j & Hj & <-).
      unfold phi.
      replace (fst (nth j res ([], []))) with (unit n j).
      - rewrite dotp_unit_l by (unfold col, B; rewrite ?length_map; lia).
        rewrite (dotp_comm _ (vscale _ _)), dotp_vscale.
        rewrite dotp_unit_l; try lia.
        + unfold col, B.
          rewrite nth_map_lt with (d := []) by (rewrite length_map; lia).
          rewrite nth_map_lt with (d := ([], [])) by lia. ring.
        + apply Hrows. now apply nth_In.
      - rewrite <- (nth_map_lt fst res j ([], []) []) by assumption.
        rewrite Hfst. unfold identity.
        rewrite nth_map_lt with (d := O) by (rewrite length_seq; lia).
        now rewrite seq_nth by lia. }
    assert (Hini : In (nth i A0 [], unit n i) (combine A0 (identity n))).
    { replace (nth i A0 [], unit n i)
        with (nth i (combine A0 (identity n)) ([], [])).
      - apply nth_In. rewrite length_combine, identity_length. lia.
      - rewrite combine_nth by now rewrite identity_length.
        f_equal. unfold identity.
        rewrite nth_map_lt with (d := O) by (rewrite length_seq; lia).
        now rewrite seq_nth by lia. }
    pose proof (Hann _ _ Hcur _ Hini) as E. unfold phi in E; simpl in E.
    rewrite (dotp_comm (unit n i)), dotp_vscale, dotp_comm in E.
    rewrite dotp_unit_l in E by (rewrite ?unit_length; lia).
    rewrite nth_unit in E by lia.
    rewrite dotp_comm.
    set (x := dotp _ _) in *. set (c := if l =? i then _ else _) in *.
    rewrite <- (Qcplus_0_r c), <- E. ring.
Qed.

(** A matrix with trivial kernel always offers a pivot. *)
Lemma gauss_jordan_complete (steps : nat) :
  length A0 = n ->
  (forall v, length v = n -> (forall a, In a A0 -> dotp a v = 0) ->
             v = repeat 0 n) ->
  forall done todo,
    inv n A0 done todo -> (length done + steps <= n)%nat ->
    gauss_jordan steps done todo <> None.
Proof.
  intros HlA Hker0; induction steps as [|steps IH];
    intros done todo Hinv Hle; simpl; [discriminate|].
  destruct (find_pivot (length done) todo) as [[p others]|] eqn:E.
  - apply IH; [eapply inv_step; eassumption|].
    rewrite length_app, length_map; simpl; lia.
  - exfalso. destruct Hinv as [Hrows Hdone Htodo Hann].
    set (k := length done) in *.
    set (w := map (fun r : arow => nth k (fst r) 0) done).
    set (v := w ++ - (1) :: repeat 0 (n - S k)).
    assert (Hw : length w = k) by (unfold w; now rewrite length_map).
    assert (Hv : length v = n)
      by (unfold v; rewrite length_app; simpl; rewrite repeat_length; lia).
    assert (Hdot : forall a, length a = n ->
              dotp a v = dotp (firstn k a) w - nth k a 0).
    { intros a Ha. rewrite (nth_split a k) at 1 by lia.
      unfold v. rewrite dotp_app by (rewrite length_firstn; lia).
      simpl. rewrite (dotp_comm _ (repeat 0 _)), dotp_zeros_l. ring. }
    assert (Hzero : forall r, In r (done ++ todo) -> phi v [] r = 0).
    { intros r Hr. destruct (Hrows r Hr) as (Ha & _).
      unfold phi. rewrite dotp_nil_r, Hdot by assumption.
      apply in_app_or in Hr as [Hr|Hr].
      - apply In_nth with (d := ([], [])) in Hr as (i & Hi & <-).
        fold k in Hi.
        replace (firstn k (fst (nth i done ([], [])))) with (unit k i).
        + rewrite dotp_unit_l by assumption. unfold w.
          rewrite nth_map_lt with (d := ([], [])) by assumption. ring.
        + apply vec_ext.
          * rewrite unit_length, length_firstn. lia.
          * intros j Hj. rewrite unit_length in Hj.
            rewrite nth_unit, nth_firstn by assumption.
            replace (j <? k) with true by (symmetry; now apply Nat.ltb_lt).
            now rewrite Hdone.
      - replace (firstn k (fst r)) with (repeat 0 k).
        + rewrite dotp_zeros_l, (find_pivot_none _ _ E r Hr). ring.
        + apply vec_ext.
          * rewrite repeat_length, length_firstn. lia.
          * intros j Hj. rewrite repeat_length in Hj.
            rewrite nth_repeat, nth_firstn.
            replace (j <? k) with true by (symmetry; now apply Nat.ltb_lt).
            symmetry; now apply Htodo. }
    assert (Hvz : v = repeat 0 n).
    { apply Hker0; auto. intros a Ha.
      apply In_nth with (d := []) in Ha as (i & Hi & <-).
      assert (Hin : In (nth i A0 [], nth i (identity n) [])
                       (combine A0 (identity n))).
      { rewrite <- combine_nth by now rewrite identity_length.
        apply nth_In. rewrite length_combine, identity_length. lia. }
      pose proof (Hann _ _ Hzero _ Hin) as E0.
      unfold phi in E0; simpl in E0. rewrite dotp_nil_r in E0.
      rewrite <- E0; ring. }
    apply Qc_minus_one_neq_0.
    replace (- (1)) with (nth k v 0).
    + rewrite Hvz. apply nth_repeat.
    + unfold v. rewrite app_nth2 by lia.
      now rewrite Hw, Nat.sub_diag.
Qed.

End GaussJordan.

(** * The elimination computes the inverse, and only the inverse *)

Lemma dotp_vecmat (n : nat) (b : vec) (M : list vec) (v : vec) :
  rect n M = true -> dotp (vecmat n b M) v = dotp b (mv M v).
Proof.
  revert b; induction M as [|r M IH]; intros [|x b] H; simpl;
    try apply dotp_zeros_l.
  apply rect_cons in H as [Hr HM].
  rewrite dotp_vadd, dotp_vscale, IH; auto.
  now rewrite vscale_length, vecmat_length.
Qed.

Lemma left_inverse_kernel (n : nat) (A B : list vec) :
  length B = n -> rect n A = true -> mm n B A = identity n ->
  forall v, length v = n -> (forall a, In a A -> dotp a v = 0) ->
            v = repeat 0 n.
Proof.
  intros HlB HA HBA v Hv Hz.
  assert (Hmv : mv A v = repeat 0 (length A)).
  { unfold mv. clear HA HBA. induction A as [|a A IH]; simpl; auto.
    rewrite Hz by now left. f_equal. apply IH. intros; apply Hz; now right. }
  apply vec_ext; [now rewrite repeat_length|].
  intros j Hj. rewrite nth_repeat.
  rewrite <- (dotp_unit_l n j v) by lia.
  replace (unit n j) with (vecmat n (nth j B []) A).
  - rewrite dotp_vecmat, Hmv, dotp_comm by assumption. apply dotp_zeros_l.
  - apply (f_equal (fun M => nth j M [])) in HBA.
    unfold mm, identity in HBA.
    rewrite nth_map_lt with (d := []) in HBA by lia.
    rewrite nth_map_lt with (d := O) in HBA by (rewrite length_seq; lia).
    now rewrite seq_nth in HBA by lia.
Qed.

Lemma gauss_jordan_start (n : nat) (A : list vec) (res : list arow) :
  length A = n -> rect n A = true ->
  gauss_jordan n [] (combine A (identity n)) = Some res ->
  inv n A res [] /\ length res = n.
Proof.
  intros HlA HA H.
  destruct (gauss_jordan_inv n A HA n _ _ _ (inv_init n A HA HlA) H)
    as (todo' & Hinv & Hlen & Hlen').
  rewrite length_combine, identity_length, HlA, Nat.min_id in Hlen'.
  assert (todo' = []) as -> by (destruct todo'; simpl in *; auto; lia).
  split; auto.
Qed.

(** Whatever [inverse_rows] returns is the inverse. *)
Lemma inverse_rows_sound (n : nat) (A B : list vec) :
  length A = n -> rect n A = true ->
  inverse_rows n A = Some B -> inverse_of n A B.
Proof.
  intros HlA HA H. unfold inverse_rows in H.
  destruct (gauss_jordan n [] (combine A (identity n))) as [res|] eqn:E;
    [|discriminate].
  injection H as <-.
  destruct (gauss_jordan_start n A res HlA HA E) as (Hinv & Hlen).
  destruct (inv_final_left n A res [] Hinv Hlen) as (HB & HBA).
  repeat split; auto.
  - now rewrite length_map.
  - now apply inv_final_right.
Qed.

(** An invertible matrix is always inverted. *)
Lemma inverse_rows_complete (n : nat) (A B : list vec) :
  length A = n -> rect n A = true ->
  inverse_of n A B -> inverse_rows n A = Some B.
Proof.
  intros HlA HA HB.
  destruct (inverse_rows n A) as [B'|] eqn:E.
  - f_equal.
    destruct (inverse_rows_sound n A B' HlA HA E) as (Hl & Hr & HBA & _).
    now apply left_inverse_unique with (n := n) (A := A).
  - exfalso. unfold inverse_rows in E.
    destruct (gauss_jordan n [] (combine A (identity n))) eqn:G;
      [discriminate|].
    destruct HB as (HlB & HrB & HBA & _).
    apply (gauss_jordan_complete n A HA n HlA
             (left_inverse_kernel n A B HlB HA HBA) [] _
             (inv_init n A HA HlA)); auto.
Qed.

(** [np.linalg.inv] on a square array: a result exactly when the inverse
    exists, [LinAlgError] otherwise. *)
Lemma linalg_inv_spec (A : ndarray) (n : nat) :
  wf A = true -> shape0 A = n -> shape1 A = n ->
  (forall B, inverse_of n (rows A) B -> np.linalg.inv A = Ok (Mat n B)) /\
  ((forall B, ~ inverse_of n (rows A) B) -> np.linalg.inv A = Raise LinAlgError).
Proof.
  intros HA H0 H1. unfold np.linalg.inv. rewrite H0, H1, Nat.eqb_refl.
  unfold wf in HA. unfold shape1 in H1. rewrite H1 in HA. split.
  - intros B HB. now rewrite (inverse_rows_complete n (rows A) B H0 HA HB).
  - intros Hno. destruct (inverse_rows n (rows A)) as [B|] eqn:E; auto.
    exfalso. apply (Hno B). now apply inverse_rows_sound.
Qed.

(** * The notebook's functions *)

(** ** The design matrix *)

Lemma zeros_of_nat (n : nat) : np.zeros (Z.of_nat n) = Ok (repeat 0 n).
Proof.
  unfold np.zeros.
  replace (Z.of_nat n <? 0)%Z with false by (symmetry; apply Z.ltb_ge; lia).
  now rewrite Nat2Z.id.
Qed.

Lemma ones_of_nat (n : nat) : np.ones (Z.of_nat n) = Ok (repeat 1 n).
Proof.
  unfold np.ones.
  replace (Z.of_nat n <? 0)%Z with false by (symmetry; apply Z.ltb_ge; lia).
  now rewrite Nat2Z.id.
Qed.

Lemma combine_ones (A : list vec) :
  map (fun p : Qc * vec => fst p :: snd p) (combine (repeat 1 (length A)) A) =
  map (cons 1) A.
Proof. induction A as [|r A IH]; simpl; auto. now rewrite IH. Qed.

Lemma augment_ok (F : ndarray) :
  augment F = Ok (Mat (S (ncols F)) (design F)).
Proof.
  unfold augment. rewrite ones_of_nat. simpl.
  unfold np.column_stack. rewrite repeat_length, Nat.eqb_refl.
  unfold shape0. now rewrite combine_ones.
Qed.

Lemma design_length (F : ndarray) : length (design F) = shape0 F.
Proof. unfold design; apply length_map. Qed.

Lemma rect_design (F : ndarray) :
  wf F = true -> rect (S (ncols F)) (design F) = true.
Proof.
  unfold wf; rewrite !rect_Forall, !Forall_forall; intros H r Hr.
  apply in_map_iff in Hr as (r0 & <- & Hr0). simpl. f_equal; auto.
Qed.

Lemma cols_length (n : nat) (A : list vec) : length (cols n A) = n.
Proof. unfold cols; now rewrite length_map, length_seq. Qed.

Lemma rect_cols (n : nat) (A : list vec) : rect (length A) (cols n A) = true.
Proof.
  apply rect_Forall, Forall_forall; intros c Hc.
  apply in_map_iff in Hc as (j & <- & _). unfold col. apply length_map.
Qed.

Lemma mv_length (A : list vec) (v : vec) : length (mv A v) = length A.
Proof. apply length_map. Qed.

Lemma mm_length (n : nat) (A B : list vec) : length (mm n A B) = length A.
Proof. apply length_map. Qed.

(** ** The normal equation *)

Lemma linalg_inv_shape (A B : ndarray) :
  np.linalg.inv A = Ok B -> ncols B = shape0 A.
Proof.
  unfold np.linalg.inv. destruct (shape0 A =? shape1 A); [|discriminate].
  destruct (inverse_rows _ _); [|discriminate].
  intros H; injection H as <-. reflexivity.
Qed.

Lemma mlr_unfold (F : ndarray) (y : vec) :
  let n := S (ncols F) in
  let X := design F in
  NormalEquation.multiple_linear_regression F y =
  (XtX_inv <- np.linalg.inv (Mat n (gram n X)) ;;
   np.dot_mv (Mat (length X) (mm (length X) (rows XtX_inv) (cols n X))) y).
Proof.
  intros n X. unfold NormalEquation.multiple_linear_regression.
  rewrite augment_ok. cbn [bind]. fold n X.
  unfold np.dot_mm at 1. unfold np.T, shape0, shape1. cbn [ncols rows].
  rewrite Nat.eqb_refl. cbn [bind]. fold (gram n X).
  destruct (np.linalg.inv (Mat n (gram n X))) as [Bm|e] eqn:E; cbn [bind]; auto.
  apply linalg_inv_shape in E. unfold shape0 in E; cbn [rows] in E.
  unfold gram in E. rewrite mm_length, cols_length in E.
  unfold np.dot_mm, shape0, shape1. cbn [ncols rows].
  rewrite E, cols_length, Nat.eqb_refl. cbn [bind].
  destruct (np.dot_mv _ y); reflexivity.
Qed.

Lemma gram_wf (F : ndarray) :
  wf F = true ->
  wf (Mat (S (ncols F)) (gram (S (ncols F)) (design F))) = true /\
  shape0 (Mat (S (ncols F)) (gram (S (ncols F)) (design F))) = S (ncols F).
Proof.
  intros HF; unfold wf, shape0, gram; cbn [ncols rows]. split.
  - now apply rect_mm, rect_design.
  - now rewrite mm_length, cols_length.
Qed.

(** ** Gradient descent *)

Lemma sub_same_length (a b : vec) :
  length a = length b -> np.sub a b = Ok (vsub a b).
Proof. intros H; unfold np.sub. now rewrite H, Nat.eqb_refl. Qed.

Lemma py_truediv_ok (a : Z) (m : nat) :
  (0 < m)%nat ->
  py_truediv a (Z.of_nat m) = Ok (Qc_of_Z a / Qc_of_nat m).
Proof.
  intros Hm; unfold py_truediv.
  replace (Z.of_nat m =? 0)%Z with false by (symmetry; apply Z.eqb_neq; lia).
  reflexivity.
Qed.

Lemma gd_update_length (n : nat) (X : list vec) (y : vec) (alpha : Qc)
      (theta : vec) :
  length theta = n -> length (gd_update n X y alpha theta) = n.
Proof.
  intros H; unfold gd_update, gradient, vsub.
  rewrite zip_with_length; auto.
  now rewrite !vscale_length, mv_length, cols_length.
Qed.

Lemma iter_update_length (n : nat) (X : list vec) (y : vec) (alpha : Qc)
      (k : nat) (theta : vec) :
  length theta = n -> length (Nat.iter k (gd_update n X y alpha) theta) = n.
Proof.
  intros H; induction k as [|k IH]; simpl; auto using gd_update_length.
Qed.

Lemma compute_cost_ok (n : nat) (X : list vec) (y theta : vec) :
  length theta = n -> length y = length X -> (0 < length y)%nat ->
  GradientDescent.compute_cost (Mat n X) y theta = Ok (mse_cost X y theta).
Proof.
  intros Ht Hy Hm. unfold GradientDescent.compute_cost, np.dot_mv, shape1.
  cbn [ncols rows]. rewrite Ht, Nat.eqb_refl. cbn [bind].
  replace (2 * Z.of_nat (length y))%Z with (Z.of_nat (2 * length y)) by lia.
  rewrite py_truediv_ok by lia. cbn [bind].
  rewrite sub_same_length by now rewrite mv_length.
  reflexivity.
Qed.

Lemma setitem_app (pre post : vec) (x c : Qc) :
  np.setitem (pre ++ x :: post) (length pre) c = Ok (pre ++ c :: post).
Proof. induction pre as [|z pre IH]; simpl; auto. now rewrite IH. Qed.

(** One pass through the loop body on a well-shaped state. *)
Lemma gd_body_ok (n : nat) (X : list vec) (y : vec) (alpha : Qc)
      (theta pre post : vec) (x : Qc) :
  length theta = n -> length y = length X -> (0 < length y)%nat ->
  GradientDescent.gd_body (Mat n X) y alpha (Z.of_nat (length y))
    (length pre) (theta, pre ++ x :: post) =
  Ok (gd_update n X y alpha theta,
      pre ++ mse_cost X y (gd_update n X y alpha theta) :: post).
Proof.
  intros Ht Hy Hm. unfold GradientDescent.gd_body.
  rewrite py_truediv_ok by assumption. cbn [bind].
  unfold np.dot_mv at 1, shape1. cbn [ncols rows].
  rewrite Ht, Nat.eqb_refl. cbn [bind].
  rewrite sub_same_length by now rewrite mv_length. cbn [bind].
  unfold np.dot_mv at 1, np.T, shape0, shape1. cbn [ncols rows].
  replace (length X =? length (vsub (mv X theta) y)) with true
    by (symmetry; apply Nat.eqb_eq; unfold vsub;
        rewrite zip_with_length; rewrite mv_length; auto).
  cbn [bind]. unfold np.scale.
  change (Qc_of_Z 1) with 1.
  fold (gradient n X y theta).
  rewrite sub_same_length
    by (unfold gradient; now rewrite !vscale_length, mv_length, cols_length).
  cbn [bind]. fold (gd_update n X y alpha theta).
  rewrite compute_cost_ok; auto using gd_update_length. cbn [bind].
  rewrite setitem_app. reflexivity.
Qed.

Lemma gd_loop_ok (n : nat) (X : list vec) (y : vec) (alpha : Qc) (k : nat) :
  length y = length X -> (0 < length y)%nat ->
  forall (theta pre : vec),
    length theta = n ->
    for_loop (GradientDescent.gd_body (Mat n X) y alpha (Z.of_nat (length y)))
             (seq (length pre) k) (theta, pre ++ repeat 0 k) =
    Ok (Nat.iter k (gd_update n X y alpha) theta,
        pre ++ map (fun i => mse_cost X y
                       (Nat.iter (S i) (gd_update n X y alpha) theta))
                   (seq 0 k)).
Proof.
  intros Hy Hm; induction k as [|k IH]; intros theta pre Ht.
  - reflexivity.
  - cbn [seq repeat for_loop]. rewrite gd_body_ok by assumption. cbn [bind].
    set (theta' := gd_update n X y alpha theta).
    set (c := mse_cost X y theta').
    replace (pre ++ c :: repeat 0 k) with ((pre ++ [c]) ++ repeat 0 k)
      by now rewrite <- app_assoc.
    replace (S (length pre)) with (length (pre ++ [c]))
      by (rewrite length_app; simpl; lia).
    rewrite IH by (now apply gd_update_length).
    rewrite <- app_assoc. cbn [map app]. rewrite <- seq_shift, map_map.
    f_equal. f_equal.
    + unfold theta'. now rewrite <- Nat.iter_succ_r.
    + f_equal. f_equal. apply map_ext; intros i.
      unfold theta'. now rewrite <- !Nat.iter_succ_r.
Qed.

(** On valid input the whole run is the [k]-fold update from zero, and the
    history holds the cost after each update. *)
Lemma gradient_descent_ok (F : ndarray) (y : vec) (alpha : Qc) (K : Z) :
  length y = shape0 F -> (0 < length y)%nat -> (0 <= K)%Z ->
  GradientDescent.gradient_descent F y alpha K =
  Ok (theta_after (S (ncols F)) (design F) y alpha (Z.to_nat K),
      cost_trace (S (ncols F)) (design F) y alpha (Z.to_nat K)).
Proof.
  intros Hy Hm HK. unfold GradientDescent.gradient_descent.
  unfold np.zeros at 1.
  replace (K <? 0)%Z with false by (symmetry; apply Z.ltb_ge; lia).
  cbn [bind]. rewrite augment_ok. cbn [bind]. unfold shape1; cbn [ncols].
  rewrite zeros_of_nat. cbn [bind]. unfold range.
  apply (gd_loop_ok (S (ncols F)) (design F) y alpha (Z.to_nat K))
    with (pre := []); auto.
  - now rewrite design_length.
  - apply repeat_length.
Qed.

(** C1.  On valid input (one target per row, at least one row) and for
    every index [i] below the iteration count, the run succeeds and entry
    [i] of the cost history is the mean-squared-error cost
    [(1/(2m)) * sum (X theta - y)^2] at the parameter vector obtained after
    the update of step [i], that is after [i + 1] updates. *)
Theorem cost_recorded_after_update (F : ndarray) (y : vec) (alpha : Qc)
        (K : Z) (i : nat) :
  length y = shape0 F -> (0 < length y)%nat -> (i < Z.to_nat K)%nat ->
  exists theta h,
    GradientDescent.gradient_descent F y alpha K = Ok (theta, h) /\
    nth_error h i =
    Some (mse_cost (design F) y
            (theta_after (S (ncols F)) (design F) y alpha (S i))).
Proof.
  intros Hy Hm Hi. eexists; eexists; split.
  - apply gradient_descent_ok; auto; lia.
  - unfold cost_trace.
    rewrite nth_error_map, nth_error_nth' with (d := O)
      by now rewrite length_seq.
    now rewrite seq_nth.
Qed.

(** C2.  On valid input the run starts from the all-zero vector of length
    [n + 1], each step replaces [theta] by
    [theta - alpha * ((1/m) * X^T (X theta - y))] computed over all rows of
    the design matrix, and the returned vector is the result of exactly
    [iterations] such steps: nothing stops the loop early. *)
Theorem gradient_descent_full_batch (F : ndarray) (y : vec) (alpha : Qc) (K : Z) :
  length y = shape0 F -> (0 < length y)%nat -> (0 <= K)%Z ->
  let n := S (ncols F) in
  let X := design F in
  theta_after n X y alpha 0 = repeat 0 (S (ncols F)) /\
  (forall k,
      theta_after n X y alpha (S k) =
      vsub (theta_after n X y alpha k)
           (vscale alpha
              (vscale (1 / Qc_of_nat (length y))
                 (mv (cols n X) (vsub (mv X (theta_after n X y alpha k)) y))))) /\
  exists h,
    GradientDescent.gradient_descent F y alpha K =
    Ok (theta_after n X y alpha (Z.to_nat K), h) /\
    length h = Z.to_nat K.
Proof.
  intros Hy Hm HK n X. split; [reflexivity|]. split; [reflexivity|].
  eexists; split.
  - now apply gradient_descent_ok.
  - unfold cost_trace. now rewrite length_map, length_seq.
Qed.

(** C7.  With [iterations = 0] the run returns the all-zero coefficient
    vector of length [n + 1] and an empty cost history; on valid input the
    cost history has exactly [iterations] entries. *)
Theorem cost_history_length :
  (forall F y alpha,
      GradientDescent.gradient_descent F y alpha 0 =
      Ok (repeat 0 (S (ncols F)), [])) /\
  (forall F y alpha K,
      length y = shape0 F -> (0 < length y)%nat -> (0 <= K)%Z ->
      exists theta h,
        GradientDescent.gradient_descent F y alpha K = Ok (theta, h) /\
        Z.of_nat (length h) = K).
Proof.
  split.
  - intros F y alpha. unfold GradientDescent.gradient_descent.
    cbn [np.zeros Z.ltb Z.compare Z.to_nat repeat bind].
    rewrite augment_ok. cbn [bind]. unfold shape1; cbn [ncols].
    now rewrite zeros_of_nat.
  - intros F y alpha K Hy Hm HK. eexists; eexists; split.
    + now apply gradient_descent_ok.
    + unfold cost_trace. rewrite length_map, length_seq. lia.
Qed.

(** ** Reasoning about binds and loops *)

Lemma bind_ok {A B : Type} (c : result A) (k : A -> result B) (v : B) :
  bind c k = Ok v -> exists x, c = Ok x /\ k x = Ok v.
Proof. destruct c as [x|e]; simpl; [eauto|discriminate]. Qed.

(** Split a successful chain of binds into its successful steps. *)
Ltac inv_bind H :=
  repeat (let x := fresh "x" in
          let E := fresh "E" in
          apply bind_ok in H; destruct H as (x & E & H)).

(** An invariant of the loop body is an invariant of the loop. *)
Lemma for_loop_inv {S : Type} (P : S -> Prop) (body : nat -> S -> result S) :
  (forall i s s', P s -> body i s = Ok s' -> P s') ->
  forall idx s s', P s -> for_loop body idx s = Ok s' -> P s'.
Proof.
  intros Hbody; induction idx as [|i idx IH]; intros s s' Hs H; simpl in H.
  - now injection H as <-.
  - inv_bind H. eauto.
Qed.

(** ** Shape mismatches *)

Lemma sub_mismatch (a b : vec) :
  length a <> length b -> (2 <= length b)%nat ->
  (length a = 1%nat /\ exists r, np.sub a b = Ok r /\ length r = length b) \/
  np.sub a b = Raise ValueError.
Proof.
  intros Hne Hb. unfold np.sub.
  replace (length a =? length b) with false
    by (symmetry; now apply Nat.eqb_neq).
  destruct a as [|x [|x' a]].
  - right. destruct b as [|y0 [|y1 b]]; simpl in *; auto; lia.
  - left. split; auto. eexists; split; [reflexivity|apply length_map].
  - right. destruct b as [|y0 [|y1 b]]; simpl in *; auto; lia.
Qed.

Lemma gd_body_mismatch (n : nat) (X : list vec) (y : vec) (alpha : Qc)
      (i : nat) (theta h : vec) :
  length theta = n -> length y <> length X -> (2 <= length y)%nat ->
  GradientDescent.gd_body (Mat n X) y alpha (Z.of_nat (length y)) i (theta, h) =
  Raise ValueError.
Proof.
  intros Ht Hne Hy. unfold GradientDescent.gd_body.
  rewrite py_truediv_ok by lia. cbn [bind].
  unfold np.dot_mv at 1, shape1. cbn [ncols rows].
  rewrite Ht, Nat.eqb_refl. cbn [bind].
  destruct (sub_mismatch (mv X theta) y) as [(H1 & r & -> & Hr)| ->]; auto.
  - rewrite mv_length; congruence.
  - cbn [bind]. unfold np.dot_mv at 1, np.T, shape0, shape1. cbn [ncols rows].
    rewrite mv_length in H1. rewrite H1, Hr.
    replace (1 =? length y) with false
      by (symmetry; apply Nat.eqb_neq; lia).
    reflexivity.
Qed.

(** C6, as the code has it.  The two lines that build the design matrix
    succeed on every rectangular array, with or without rows and columns:
    the result is rectangular, has the same number of rows and one more
    column, and its row [i] is 1 followed by row [i] of the input. *)
Theorem augment_total (F : ndarray) :
  wf F = true ->
  exists X,
    augment F = Ok X /\ wf X = true /\
    shape0 X = shape0 F /\ shape1 X = S (shape1 F) /\
    forall i, (i < shape0 F)%nat ->
              nth i (rows X) [] = 1 :: nth i (rows F) [].
Proof.
  intros HF. exists (Mat (S (ncols F)) (design F)).
  split; [apply augment_ok|]. split; [now apply rect_design|].
  split; [apply design_length|]. split; [reflexivity|].
  intros i Hi. cbn [rows]. unfold design.
  now rewrite nth_map_lt with (d := []).
Qed.

(** C9.  The two [predict] definitions agree on every input, and when the
    coefficient vector has one entry more than the features have columns
    both return the design matrix times the coefficients. *)
Theorem predict_definitions_agree (F : ndarray) (theta : vec) :
  NormalEquation.predict F theta = GradientDescent.predict F theta /\
  (length theta = S (ncols F) ->
   NormalEquation.predict F theta = Ok (mv (design F) theta) /\
   GradientDescent.predict F theta = Ok (mv (design F) theta)).
Proof.
  split; [reflexivity|]. intros Ht.
  unfold NormalEquation.predict, GradientDescent.predict.
  rewrite augment_ok. cbn [bind]. unfold np.dot_mv, shape1. cbn [ncols rows].
  now rewrite Ht, Nat.eqb_refl.
Qed.

(** * The notebook's example, and concrete runs *)

Lemma vec_eqb_eq (a b : vec) : vec_eqb a b = true -> a = b.
Proof.
  revert b; induction a as [|x a IH]; intros [|y b] H; simpl in H;
    try discriminate; auto.
  apply andb_true_iff in H as [Hx Hab].
  f_equal; [now apply Qc_eq_bool_correct | now apply IH].
Qed.

Lemma ok_vec_by_eval (r : result vec) (v : vec) :
  match r with Ok u => vec_eqb u v | Raise _ => false end = true -> r = Ok v.
Proof.
  destruct r as [u|e]; [|discriminate].
  intros H; f_equal; now apply vec_eqb_eq.
Qed.

Lemma ok_pair_by_eval (r : result (vec * vec)) (v h : vec) :
  match r with
  | Ok (u, g) => vec_eqb u v && vec_eqb g h
  | Raise _ => false
  end = true -> r = Ok (v, h).
Proof.
  destruct r as [[u g]|e]; [|discriminate].
  intros H; apply andb_true_iff in H as [Hu Hg].
  f_equal; f_equal; now apply vec_eqb_eq.
Qed.



(** The first recorded cost of the example is the cost after the first
    update, and differs from the cost of the initial all-zero vector. *)
Example first_cost_is_post_update :
  GradientDescent.gradient_descent X_example y_example alpha_example 1 =
  Ok ([Q2Qc (63 # 400); Q2Qc (87 # 200); Q2Qc (123 # 200)],
      [Q2Qc (694127 # 320000)]) /\
  mse_cost (design X_example) y_example (repeat 0 3) = Q2Qc (125 # 8).
Proof.
  split.
  - apply ok_pair_by_eval; vm_compute; reflexivity.
  - apply Qc_eq_bool_correct; vm_compute; reflexivity.
Qed.

(** Counterexample to C5 as stated: with two feature rows and a single
    target the lengths differ, yet gradient descent broadcasts the target
    and returns a result; with no iteration it returns for any mismatch. *)
Lemma dimension_mismatch_counterexample :
  length [q 3] <> shape0 (Mat 1 [[q 1]; [q 2]]) /\
  GradientDescent.gradient_descent (Mat 1 [[q 1]; [q 2]]) [q 3] alpha_example 1 =
  Ok ([Q2Qc (9 # 50); Q2Qc (27 # 100)], [Q2Qc (117009 # 20000)]) /\
  length [q 1; q 2] <> shape0 X_example /\
  GradientDescent.gradient_descent X_example [q 1; q 2] alpha_example 0 =
  Ok ([q 0; q 0; q 0], []).
Proof.
  split; [cbv; lia|].
  split; [apply ok_pair_by_eval; vm_compute; reflexivity|].
  split; [cbv; lia|].
  apply ok_pair_by_eval; vm_compute; reflexivity.
Qed.

(** Counterexample to C6 as stated: a feature matrix with no rows, and one
    with no columns, are both augmented without any error. *)
Lemma augment_counterexample :
  wf (Mat 2 []) = true /\ shape0 (Mat 2 []) = 0%nat /\
  augment (Mat 2 []) = Ok (Mat 3 []) /\
  wf (Mat 0 [[]; []]) = true /\ shape1 (Mat 0 [[]; []]) = 0%nat /\
  augment (Mat 0 [[]; []]) = Ok (Mat 1 [[1]; [1]]).
Proof. repeat split; reflexivity. Qed.

(** * The theorems at the notebook's example *)

Lemma cost_recorded_after_update_witness :
  exists theta h,
    GradientDescent.gradient_descent X_example y_example alpha_example 3 =
    Ok (theta, h) /\
    nth_error h 1 =
    Some (mse_cost (design X_example) y_example
            (theta_after 3 (design X_example) y_example alpha_example 2)).
Proof.
  apply (cost_recorded_after_update X_example y_example alpha_example 3 1);
    [reflexivity | cbv; lia | cbv; lia].
Defined.

Lemma gradient_descent_full_batch_witness :
  exists h,
    GradientDescent.gradient_descent X_example y_example alpha_example 3 =
    Ok (theta_after 3 (design X_example) y_example alpha_example 3, h) /\
    length h = 3%nat.
Proof.
  apply (gradient_descent_full_batch X_example y_example alpha_example 3);
    [reflexivity | cbv; lia | lia].
Defined.

Lemma augment_total_witness :
  exists X,
    augment X_example = Ok X /\ wf X = true /\
    shape0 X = shape0 X_example /\ shape1 X = S (shape1 X_example) /\
    forall i, (i < shape0 X_example)%nat ->
              nth i (rows X) [] = 1 :: nth i (rows X_example) [].
Proof. apply (augment_total X_example); reflexivity. Defined.

Lemma cost_history_length_witness :
  exists theta h,
    GradientDescent.gradient_descent X_example y_example alpha_example 3 =
    Ok (theta, h) /\
    Z.of_nat (length h) = 3%Z.
Proof.
  apply (proj2 cost_history_length X_example y_example alpha_example 3%Z);
    [reflexivity | cbv; lia | lia].
Defined.

Lemma predict_definitions_agree_witness :
  NormalEquation.predict X_new [q (-3); q (-1); q 3] =
  Ok (mv (design X_new) [q (-3); q (-1); q 3]) /\
  GradientDescent.predict X_new [q (-3); q (-1); q 3] =
  Ok (mv (design X_new) [q (-3); q (-1); q 3]).
Proof.
  apply (proj2 (predict_definitions_agree X_new [q (-3); q (-1); q 3]));
    reflexivity.
Defined.

(** * Further properties of the solvers *)

(** ** What a successful fit means *)

Lemma mlr_success (F : ndarray) (y beta : vec) :
  wf F = true ->
  NormalEquation.multiple_linear_regression F y = Ok beta ->
  length y = shape0 F /\
  exists B, inverse_of (S (ncols F)) (gram (S (ncols F)) (design F)) B /\
            beta = normal_equation (S (ncols F)) (design F) B y.
Proof.
  intros HF H. rewrite mlr_unfold in H.
  destruct (gram_wf F HF) as (Hwf & Hs0).
  destruct (np.linalg.inv _) as [Bm|e] eqn:E; cbn [bind] in H; [|discriminate].
  unfold np.linalg.inv in E. rewrite Hs0 in E.
  unfold shape1 in E; cbn [ncols rows] in E. rewrite Nat.eqb_refl in E.
  destruct (inverse_rows _ _) as [B|] eqn:EB; [|discriminate].
  injection E as <-. cbn [rows] in H.
  unfold np.dot_mv, shape1 in H; cbn [ncols rows] in H.
  destruct (length (design F) =? length y) eqn:El; [|discriminate].
  apply Nat.eqb_eq in El. rewrite design_length in El.
  injection H as <-. split; [congruence|].
  exists B. split; [|reflexivity].
  apply inverse_rows_sound; auto.
Qed.

Lemma gram_no_rows (n : nat) (B : list vec) :
  ~ inverse_of (S n) (gram (S n) []) B.
Proof.
  intros (_ & HrB & _ & HGB).
  apply (f_equal (fun M => nth 0 (nth 0 M []) 0)) in HGB.
  unfold mm, gram, identity in HGB.
  rewrite nth_map_lt with (d := []) in HGB
    by (unfold mm; rewrite length_map, cols_length; lia).
  rewrite nth_map_lt with (d := O) in HGB by (rewrite length_seq; lia).
  rewrite seq_nth in HGB by lia.
  rewrite nth_unit in HGB by lia.
  rewrite nth_vecmat in HGB by assumption.
  unfold mm in HGB.
  rewrite nth_map_lt with (d := []) in HGB by (rewrite cols_length; lia).
  replace (vecmat (S n) (nth 0 (cols (S n) []) []) []) with (repeat 0 (S n))
    in HGB by (destruct (nth 0 (cols (S n) []) []); reflexivity).
  rewrite dotp_zeros_l in HGB. cbn [Nat.add Nat.eqb] in HGB.
  apply Q_apart_0_1. now symmetry.
Qed.

Lemma mlr_success_rows (F : ndarray) (y beta : vec) :
  wf F = true ->
  NormalEquation.multiple_linear_regression F y = Ok beta ->
  (0 < length y)%nat.
Proof.
  intros HF H. destruct (mlr_success F y beta HF H) as (Hy & B & HB & _).
  destruct (length y) eqn:E; [|lia]. exfalso.
  unfold shape0 in Hy. unfold design in HB.
  destruct (rows F); [|discriminate]. now apply gram_no_rows in HB.
Qed.

(** ** Shapes and failures of gradient descent on arbitrary input *)

Lemma sub_length (a b r : vec) :
  length a = length b -> np.sub a b = Ok r -> length r = length a.
Proof.
  intros H. rewrite sub_same_length by assumption.
  intros E; injection E as <-. unfold vsub. now apply zip_with_length.
Qed.

Lemma dot_mv_length (A : ndarray) (v r : vec) :
  np.dot_mv A v = Ok r -> length r = shape0 A.
Proof.
  unfold np.dot_mv. destruct (shape1 A =? length v); [|discriminate].
  intros E; injection E as <-. apply mv_length.
Qed.

Lemma setitem_length (a : vec) (i : nat) (c : Qc) (a' : vec) :
  np.setitem a i c = Ok a' -> length a' = length a.
Proof.
  revert i a'; induction a as [|x a IH]; intros [|i] a' H;
    cbn [np.setitem] in H; try discriminate.
  - now injection H as <-.
  - inv_bind H. injection H as <-. cbn [length]. f_equal. eauto.
Qed.

Lemma setitem_lt (a : vec) (i : nat) (c : Qc) :
  (i < length a)%nat -> exists a', np.setitem a i c = Ok a'.
Proof.
  revert i; induction a as [|x a IH]; intros [|i] H; cbn [length] in H;
    try lia; cbn [np.setitem]; eauto.
  destruct (IH i) as (a' & ->); [lia|]. cbn [bind]. eauto.
Qed.

Lemma gd_body_shapes (n : nat) (X : list vec) (y : vec) (alpha : Qc) (m : Z)
      (i : nat) (theta h theta' h' : vec) :
  length theta = n ->
  GradientDescent.gd_body (Mat n X) y alpha m i (theta, h) = Ok (theta', h') ->
  length theta' = n /\ length h' = length h.
Proof.
  intros Ht H. unfold GradientDescent.gd_body in H. inv_bind H.
  injection H as <- <-.
  apply dot_mv_length in E2. unfold np.T, shape0 in E2; cbn [rows] in E2.
  rewrite cols_length in E2. cbn [ncols] in E2.
  split; [|eapply setitem_length; eauto].
  apply sub_length in E3; [congruence|].
  unfold np.scale. now rewrite !vscale_length, Ht.
Qed.

Lemma gd_result_shapes (F : ndarray) (y : vec) (alpha : Qc) (K : Z)
      (theta h : vec) :
  GradientDescent.gradient_descent F y alpha K = Ok (theta, h) ->
  length theta = S (ncols F) /\ Z.of_nat (length h) = K.
Proof.
  unfold GradientDescent.gradient_descent; intros H.
  apply bind_ok in H as (h0 & E0 & H).
  rewrite augment_ok in H. cbn [bind] in H.
  unfold shape1 in H; cbn [ncols] in H.
  rewrite zeros_of_nat in H. cbn [bind] in H.
  unfold np.zeros in E0. destruct (K <? 0)%Z eqn:EK; [discriminate|].
  injection E0 as <-. apply Z.ltb_ge in EK.
  apply (for_loop_inv
           (fun s : vec * vec =>
              length (fst s) = S (ncols F) /\ length (snd s) = Z.to_nat K))
    in H.
  - cbn [fst snd] in H. destruct H as (H1 & H2). split; auto. lia.
  - intros i [t0 h1] [t1 h2] (P1 & P2) Hb; cbn [fst snd] in *.
    apply gd_body_shapes in Hb; auto. destruct Hb; split; congruence.
  - cbn [fst snd]. now rewrite !repeat_length.
Qed.

(** X1.  Whatever the input, when [gradient_descent] returns, the
    coefficient vector has one entry per feature column plus one, and the
    cost history has one entry per iteration. *)
Theorem gradient_descent_shapes (F : ndarray) (y : vec) (alpha : Qc) (K : Z)
        (theta h : vec) :
  GradientDescent.gradient_descent F y alpha K = Ok (theta, h) ->
  length theta = S (ncols F) /\ Z.of_nat (length h) = K.
Proof. apply gd_result_shapes. Qed.

(** X2.  A negative iteration count makes [gradient_descent] raise
    [ValueError] (from [np.zeros]) before it looks at the data: the same
    error for empty, mismatched or well-formed inputs. *)
Theorem gradient_descent_negative_iterations (F : ndarray) (y : vec)
        (alpha : Qc) (K : Z) :
  (K < 0)%Z ->
  GradientDescent.gradient_descent F y alpha K = Raise ValueError.
Proof.
  intros HK. unfold GradientDescent.gradient_descent, np.zeros.
  replace (K <? 0)%Z with true by (symmetry; now apply Z.ltb_lt).
  reflexivity.
Qed.

Lemma for_loop_total {S : Type} (P : S -> Prop) (body : nat -> S -> result S)
      (idx : list nat) :
  (forall i s, In i idx -> P s -> exists s', body i s = Ok s' /\ P s') ->
  forall s, P s -> exists s', for_loop body idx s = Ok s' /\ P s'.
Proof.
  induction idx as [|i idx IH]; intros Hbody s Hs; cbn [for_loop].
  - eauto.
  - destruct (Hbody i s (or_introl eq_refl) Hs) as (s1 & -> & Hs1).
    cbn [bind]. apply IH; auto. intros j s2 Hj. apply Hbody; now right.
Qed.

Lemma sub_broadcast_r (p : vec) (y0 : Qc) :
  np.sub p [y0] = Ok (map (fun x => x - y0) p).
Proof.
  unfold np.sub. destruct p as [|x [|x' p]]; reflexivity.
Qed.

(** X3.  A target vector with a single entry is accepted for a feature
    matrix with any number of rows: numpy broadcasts the one target over
    all rows, and the run returns a coefficient vector and a full cost
    history instead of raising. *)
Theorem gradient_descent_single_target (F : ndarray) (y0 alpha : Qc) (K : Z) :
  (0 <= K)%Z ->
  exists theta h,
    GradientDescent.gradient_descent F [y0] alpha K = Ok (theta, h) /\
    length theta = S (ncols F) /\ Z.of_nat (length h) = K.
Proof.
  intros HK.
  assert (Hrun : exists s,
             GradientDescent.gradient_descent F [y0] alpha K = Ok s).
  { unfold GradientDescent.gradient_descent. unfold np.zeros at 1.
    replace (K <? 0)%Z with false by (symmetry; apply Z.ltb_ge; lia).
    cbn [bind]. rewrite augment_ok. cbn [bind].
    unfold shape1; cbn [ncols]. rewrite zeros_of_nat. cbn [bind].
    destruct (for_loop_total
                (fun s : vec * vec =>
                   length (fst s) = S (ncols F) /\
                   length (snd s) = Z.to_nat K)
                (GradientDescent.gd_body (Mat (S (ncols F)) (design F))
                   [y0] alpha (Z.of_nat (length [y0])))
                (range K)) with (s := (repeat 0 (S (ncols F)),
                                       repeat 0 (Z.to_nat K)))
      as (s' & Hs' & _).
    - intros i [t hh] Hi (Ht & Hh); cbn [fst snd] in *.
      apply in_seq in Hi.
      unfold GradientDescent.gd_body. cbn [length].
      rewrite py_truediv_ok by lia. cbn [bind].
      unfold np.dot_mv at 1, shape1. cbn [ncols rows].
      rewrite Ht, Nat.eqb_refl. cbn [bind].
      rewrite sub_broadcast_r. cbn [bind].
      unfold np.dot_mv at 1, np.T, shape0, shape1. cbn [ncols rows].
      rewrite length_map, mv_length, Nat.eqb_refl. cbn [bind].
      rewrite sub_same_length
        by (unfold np.scale;
            now rewrite !vscale_length, mv_length, cols_length).
      cbn [bind].
      unfold GradientDescent.compute_cost, np.dot_mv, shape1.
      cbn [ncols rows length].
      replace (S (ncols F) =? length _) with true
        by (symmetry; apply Nat.eqb_eq; unfold vsub;
            rewrite zip_with_length; auto; unfold np.scale;
            now rewrite !vscale_length, mv_length, cols_length).
      cbn [bind].
      change (2 * Z.of_nat 1)%Z with (Z.of_nat 2).
      rewrite py_truediv_ok by lia. cbn [bind].
      rewrite sub_broadcast_r. cbn [bind].
      match goal with
      | |- context [np.setitem hh i ?c] =>
          destruct (setitem_lt hh i c) as (h2 & Eh2);
            [unfold range in *; lia|]
      end.
      rewrite Eh2. cbn [bind]. eexists; split; [reflexivity|].
      cbn [fst snd]. split.
      + unfold vsub. now rewrite zip_with_length
          by (unfold np.scale;
              now rewrite !vscale_length, mv_length, cols_length).
      + apply setitem_length in Eh2. congruence.
    - cbn [fst snd]. now rewrite !repeat_length.
    - eauto. }
  destruct Hrun as ([theta h] & Hrun).
  exists theta, h. split; auto.
  now apply gd_result_shapes in Hrun.
Qed.

Lemma normal_equation_length (n : nat) (X B : list vec) (y : vec) :
  length (normal_equation n X B y) = length B.
Proof. unfold normal_equation. now rewrite mv_length, mm_length. Qed.


(** ** Prediction *)

(** X8.  Both [predict] definitions raise [ValueError] when the number of
    coefficients is not the number of feature columns plus one. *)
Theorem predict_length_mismatch (F : ndarray) (theta : vec) :
  length theta <> S (ncols F) ->
  NormalEquation.predict F theta = Raise ValueError /\
  GradientDescent.predict F theta = Raise ValueError.
Proof.
  intros H. unfold NormalEquation.predict, GradientDescent.predict.
  rewrite augment_ok. cbn [bind]. unfold np.dot_mv, shape1. cbn [ncols rows].
  replace (S (ncols F) =? length theta) with false
    by (symmetry; apply Nat.eqb_neq; congruence).
  split; reflexivity.
Qed.


(** ** More on the normal equation *)

(** X11.  A successful fit has one coefficient per feature column plus the
    intercept, and it only succeeds when there is one target per row and at
    least one row. *)
Theorem fit_success_shapes (F : ndarray) (y beta : vec) :
  wf F = true ->
  NormalEquation.multiple_linear_regression F y = Ok beta ->
  length beta = S (ncols F) /\ length y = shape0 F /\ (0 < shape0 F)%nat.
Proof.
  intros HF H.
  pose proof (mlr_success_rows F y beta HF H) as Hm.
  destruct (mlr_success F y beta HF H) as (Hy & B & HB & ->).
  rewrite normal_equation_length.
  split; [apply HB|]. split; [assumption|lia].
Qed.

Lemma mlr_singular (F : ndarray) (y : vec) :
  wf F = true ->
  (forall B, ~ inverse_of (S (ncols F)) (gram (S (ncols F)) (design F)) B) ->
  NormalEquation.multiple_linear_regression F y = Raise LinAlgError.
Proof.
  intros HF Hno. rewrite mlr_unfold.
  destruct (gram_wf F HF) as (Hwf & Hs0).
  destruct (linalg_inv_spec _ (S (ncols F)) Hwf Hs0 eq_refl) as (_ & Hsing).
  now rewrite (Hsing Hno).
Qed.

(** X12.  A feature matrix without rows cannot be fitted: whatever the
    targets, [multiple_linear_regression] raises [LinAlgError]. *)
Theorem fit_without_rows (F : ndarray) (y : vec) :
  shape0 F = 0%nat ->
  NormalEquation.multiple_linear_regression F y = Raise LinAlgError.
Proof.
  intros H0. unfold shape0 in H0. apply length_zero_iff_nil in H0.
  apply mlr_singular.
  - unfold wf. now rewrite H0.
  - intros B HB. unfold design in HB. rewrite H0 in HB.
    now apply gram_no_rows in HB.
Qed.

(** ** The cost function and the recorded history *)

(** X14.  [compute_cost] checks the coefficient vector against the columns
    of [X] before it divides: a wrong coefficient length raises
    [ValueError] even when the target vector is empty; with aligned
    coefficients, two or more targets and two or more rows whose numbers
    differ, the subtraction raises [ValueError]. *)
Theorem compute_cost_shape_errors (X : ndarray) (y theta : vec) :
  (shape1 X <> length theta ->
   GradientDescent.compute_cost X y theta = Raise ValueError) /\
  (shape1 X = length theta ->
   (2 <= length y)%nat -> (2 <= shape0 X)%nat -> length y <> shape0 X ->
   GradientDescent.compute_cost X y theta = Raise ValueError).
Proof.
  split.
  - intros H. unfold GradientDescent.compute_cost, np.dot_mv.
    replace (shape1 X =? length theta) with false
      by (symmetry; now apply Nat.eqb_neq).
    reflexivity.
  - intros H Hy HX Hne. unfold GradientDescent.compute_cost, np.dot_mv.
    rewrite H, Nat.eqb_refl. cbn [bind].
    replace (2 * Z.of_nat (length y))%Z with (Z.of_nat (2 * length y)) by lia.
    rewrite py_truediv_ok by lia. cbn [bind].
    destruct (sub_mismatch (mv (rows X) theta) y) as [(H1 & _)| ->]; auto.
    + rewrite mv_length. unfold shape0 in Hne. congruence.
    + rewrite mv_length in H1. unfold shape0 in HX. lia.
Qed.

Lemma theta_after_add (n : nat) (X : list vec) (y : vec) (alpha : Qc)
      (k d : nat) :
  theta_after n X y alpha (d + k) =
  Nat.iter d (gd_update n X y alpha) (theta_after n X y alpha k).
Proof. unfold theta_after. apply Nat.iter_add. Qed.

(** X15.  On valid input with at least one iteration, the last entry of
    the returned cost history is what [compute_cost] gives for the returned
    coefficients on the design matrix: history and result are aligned. *)
Theorem last_cost_is_cost_of_result (F : ndarray) (y : vec) (alpha : Qc) (K : Z) :
  length y = shape0 F -> (0 < length y)%nat -> (0 < K)%Z ->
  exists theta h c,
    GradientDescent.gradient_descent F y alpha K = Ok (theta, h) /\
    GradientDescent.compute_cost (Mat (S (ncols F)) (design F)) y theta = Ok c /\
    nth_error h (Z.to_nat K - 1) = Some c.
Proof.
  intros Hy Hm HK.
  eexists; eexists; eexists. split; [apply gradient_descent_ok; auto; lia|].
  split.
  - apply compute_cost_ok; auto.
    + unfold theta_after. apply iter_update_length, repeat_length.
    + now rewrite design_length.
  - unfold cost_trace.
    rewrite nth_error_map, nth_error_nth' with (d := O)
      by (rewrite length_seq; lia).
    rewrite seq_nth by lia. cbn [option_map Nat.add].
    do 3 f_equal. lia.
Qed.

Lemma firstn_seq_le (k k' s : nat) :
  (k <= k')%nat -> firstn k (seq s k') = seq s k.
Proof.
  revert k' s; induction k as [|k IH]; intros [|k'] s H; cbn [firstn seq];
    try lia; auto.
  f_equal. apply IH. lia.
Qed.

(** X16.  On valid input, asking for more iterations only extends the run:
    the cost history of the shorter run is a prefix of the longer one, and
    the longer run's coefficients are the shorter run's coefficients after
    the remaining updates. *)
Theorem longer_run_extends_shorter (F : ndarray) (y : vec) (alpha : Qc)
        (K K' : Z) (theta h theta' h' : vec) :
  length y = shape0 F -> (0 < length y)%nat -> (0 <= K <= K')%Z ->
  GradientDescent.gradient_descent F y alpha K = Ok (theta, h) ->
  GradientDescent.gradient_descent F y alpha K' = Ok (theta', h') ->
  h = firstn (Z.to_nat K) h' /\
  theta' = Nat.iter (Z.to_nat (K' - K))
             (gd_update (S (ncols F)) (design F) y alpha) theta.
Proof.
  intros Hy Hm HK H H'.
  rewrite gradient_descent_ok in H, H' by (auto; lia).
  injection H as <- <-. injection H' as <- <-. split.
  - unfold cost_trace. rewrite firstn_map, firstn_seq_le by lia.
    reflexivity.
  - rewrite <- theta_after_add. f_equal. lia.
Qed.

(** * The further properties at concrete inputs *)

Lemma example_fit :
  NormalEquation.multiple_linear_regression X_example y_example =
  Ok [q (-3); q (-1); q 3].
Proof. apply ok_vec_by_eval; vm_compute; reflexivity. Qed.

Lemma gradient_descent_shapes_witness :
  length [Q2Qc (9 # 50); Q2Qc (27 # 100)] = 2%nat /\
  Z.of_nat (length [Q2Qc (117009 # 20000)]) = 1%Z.
Proof.
  apply (gradient_descent_shapes (Mat 1 [[q 1]; [q 2]]) [q 3] alpha_example 1).
  apply ok_pair_by_eval; vm_compute; reflexivity.
Defined.

Lemma gradient_descent_negative_iterations_witness :
  GradientDescent.gradient_descent X_example y_example alpha_example (-1) =
  Raise ValueError.
Proof.
  apply (gradient_descent_negative_iterations X_example y_example
           alpha_example (-1)); lia.
Defined.

Lemma gradient_descent_single_target_witness :
  exists theta h,
    GradientDescent.gradient_descent (Mat 1 [[q 1]; [q 2]]) [q 3]
      alpha_example 2 = Ok (theta, h) /\
    length theta = 2%nat /\ Z.of_nat (length h) = 2%Z.
Proof.
  apply (gradient_descent_single_target (Mat 1 [[q 1]; [q 2]]) (q 3)
           alpha_example 2); lia.
Defined.

Lemma predict_length_mismatch_witness :
  NormalEquation.predict X_new [q 1] = Raise ValueError /\
  GradientDescent.predict X_new [q 1] = Raise ValueError.
Proof. apply (predict_length_mismatch X_new [q 1]); cbv; lia. Defined.


Lemma fit_success_shapes_witness :
  length [q (-3); q (-1); q 3] = 3%nat /\
  length y_example = shape0 X_example /\ (0 < shape0 X_example)%nat.
Proof.
  apply (fit_success_shapes X_example y_example [q (-3); q (-1); q 3]);
    [reflexivity | exact example_fit].
Defined.

Lemma fit_without_rows_witness :
  NormalEquation.multiple_linear_regression (Mat 2 []) [q 1; q 2] =
  Raise LinAlgError.
Proof. apply (fit_without_rows (Mat 2 []) [q 1; q 2]); reflexivity. Defined.

Lemma compute_cost_shape_errors_witness :
  GradientDescent.compute_cost (Mat 2 [[q 1; q 2]]) [] [q 1] =
  Raise ValueError /\
  GradientDescent.compute_cost (Mat 1 [[q 1]; [q 2]; [q 3]]) [q 1; q 2] [q 1] =
  Raise ValueError.
Proof.
  split.
  - apply (proj1 (compute_cost_shape_errors (Mat 2 [[q 1; q 2]]) [] [q 1]));
      cbv; lia.
  - apply (proj2 (compute_cost_shape_errors (Mat 1 [[q 1]; [q 2]; [q 3]])
                    [q 1; q 2] [q 1])); cbv; lia.
Defined.

Lemma last_cost_is_cost_of_result_witness :
  exists theta h c,
    GradientDescent.gradient_descent X_example y_example alpha_example 2 =
    Ok (theta, h) /\
    GradientDescent.compute_cost (Mat 3 (design X_example)) y_example theta =
    Ok c /\
    nth_error h 1 = Some c.
Proof.
  apply (last_cost_is_cost_of_result X_example y_example alpha_example 2);
    [reflexivity | cbv; lia | lia].
Defined.

Lemma longer_run_extends_shorter_witness :
  [Q2Qc (694127 # 320000)] =
  firstn 1 [Q2Qc (694127 # 320000); Q2Qc (80582378417 # 204800000000)] /\
  [Q2Qc (17307 # 80000); Q2Qc (94317 # 160000); Q2Qc (67233 # 80000)] =
  Nat.iter 1 (gd_update 3 (design X_example) y_example alpha_example)
    [Q2Qc (63 # 400); Q2Qc (87 # 200); Q2Qc (123 # 200)].
Proof.
  apply (longer_run_extends_shorter X_example y_example alpha_example 1 2
           [Q2Qc (63 # 400); Q2Qc (87 # 200); Q2Qc (123 # 200)]
           [Q2Qc (694127 # 320000)]
           [Q2Qc (17307 # 80000); Q2Qc (94317 # 160000); Q2Qc (67233 # 80000)]
           [Q2Qc (694127 # 320000); Q2Qc (80582378417 # 204800000000)]);
    [reflexivity | cbv; lia | lia
    | apply ok_pair_by_eval; vm_compute; reflexivity
    | apply ok_pair_by_eval; vm_compute; reflexivity].
Defined.
(** * Float64: what rounding and overflow change *)

(** ** The sign of float64 results *)

Lemma round_aux_clear (m e : Z) (l : SpecFloat.location) :
  F64.sf_sign_clear
    (SpecFloat.binary_round_aux FloatOps.prec FloatOps.emax false m e l) = true.
Proof.
  unfold SpecFloat.binary_round_aux.
  destruct (SpecFloat.shr_fexp _ _ m e l) as [mrs' e'].
  destruct (SpecFloat.shr_fexp _ _ _ e' SpecFloat.loc_Exact) as [mrs'' e''].
  destruct (SpecFloat.shr_m mrs''); [reflexivity| |reflexivity].
  destruct (Z.leb _ _); reflexivity.
Qed.

Lemma round_clear (m : positive) (e : Z) :
  F64.sf_sign_clear
    (SpecFloat.binary_round FloatOps.prec FloatOps.emax false m e) = true.
Proof.
  unfold SpecFloat.binary_round.
  destruct (SpecFloat.shl_align _ _ _) as [mz ez]. apply round_aux_clear.
Qed.

Lemma sf_mul_self_clear (x : SpecFloat.spec_float) :
  F64.sf_sign_clear (FloatAxioms.SF64mul x x) = true.
Proof.
  destruct x as [s|s| |s m e]; cbn; try reflexivity;
    try (destruct s; reflexivity).
  replace (xorb s s) with false by (destruct s; reflexivity).
  apply round_aux_clear.
Qed.

Lemma sf_mul_clear (x y : SpecFloat.spec_float) :
  F64.sf_sign_clear x = true -> F64.sf_sign_clear y = true ->
  F64.sf_sign_clear (FloatAxioms.SF64mul x y) = true.
Proof.
  destruct x as [s|s| |s m e], y as [s'|s'| |s' m' e']; cbn;
    try reflexivity; destruct s, s'; cbn; try discriminate; try reflexivity;
    intros _ _; apply round_aux_clear.
Qed.

Lemma sf_add_clear (x y : SpecFloat.spec_float) :
  F64.sf_sign_clear x = true -> F64.sf_sign_clear y = true ->
  F64.sf_sign_clear (FloatAxioms.SF64add x y) = true.
Proof.
  destruct x as [s|s| |s m e], y as [s'|s'| |s' m' e']; cbn;
    try reflexivity; destruct s, s'; cbn; try discriminate; try reflexivity;
    intros _ _; apply round_clear.
Qed.

Lemma sf_div_clear (x y : SpecFloat.spec_float) :
  F64.sf_sign_clear x = true -> F64.sf_sign_clear y = true ->
  F64.sf_sign_clear (FloatAxioms.SF64div x y) = true.
Proof.
  destruct x as [s|s| |s m e], y as [s'|s'| |s' m' e']; cbn;
    try reflexivity; destruct s, s'; cbn; try discriminate; try reflexivity;
    intros _ _.
  destruct (SpecFloat.SFdiv_core_binary _ _ _ _ _ _) as [[mz ez] lz].
  apply round_aux_clear.
Qed.

Lemma sign_clear_square (x : PrimFloat.float) :
  F64.sign_clear (PrimFloat.mul x x) = true.
Proof.
  unfold F64.sign_clear. rewrite FloatAxioms.mul_spec. apply sf_mul_self_clear.
Qed.

Lemma sign_clear_mul (x y : PrimFloat.float) :
  F64.sign_clear x = true -> F64.sign_clear y = true ->
  F64.sign_clear (PrimFloat.mul x y) = true.
Proof.
  unfold F64.sign_clear. rewrite FloatAxioms.mul_spec. apply sf_mul_clear.
Qed.

Lemma sign_clear_add (x y : PrimFloat.float) :
  F64.sign_clear x = true -> F64.sign_clear y = true ->
  F64.sign_clear (PrimFloat.add x y) = true.
Proof.
  unfold F64.sign_clear. rewrite FloatAxioms.add_spec. apply sf_add_clear.
Qed.

Lemma sign_clear_div (x y : PrimFloat.float) :
  F64.sign_clear x = true -> F64.sign_clear y = true ->
  F64.sign_clear (PrimFloat.div x y) = true.
Proof.
  unfold F64.sign_clear. rewrite FloatAxioms.div_spec. apply sf_div_clear.
Qed.

Lemma sign_clear_of_Z (z : Z) : F64.sign_clear (F64.of_Z z) = true.
Proof.
  unfold F64.sign_clear, F64.of_Z. rewrite FloatAxioms.of_uint63_spec.
  pose proof (Uint63.to_Z_bounded (Uint63Axioms.of_Z z)) as Hb.
  destruct (Uint63Axioms.to_Z (Uint63Axioms.of_Z z)) as [|p|p]; cbn.
  - reflexivity.
  - apply round_clear.
  - lia.
Qed.

(** A float whose sign bit is clear is [>= 0]; so a float that is NaN or
    has a clear sign bit is never negative. *)
Lemma sign_clear_never_negative (c : PrimFloat.float) :
  F64.sign_clear c = true -> F64.never_negative c.
Proof.
  unfold F64.sign_clear, F64.never_negative, PrimFloat.is_nan.
  rewrite FloatAxioms.eqb_spec, FloatAxioms.leb_spec.
  change (FloatOps.Prim2SF PrimFloat.zero) with (SpecFloat.S754_zero false).
  destruct (FloatOps.Prim2SF c) as [s|s| |s m e]; cbn;
    try (destruct s; cbn; try discriminate; intros _; right; reflexivity).
  intros _; left; reflexivity.
Qed.

(** ** The cost in float64 *)

Lemma sum_from_clear (a : F64.vec) (acc : PrimFloat.float) :
  F64.sign_clear acc = true ->
  Forall (fun x => F64.sign_clear x = true) a ->
  F64.sign_clear (F64.sum_from acc a) = true.
Proof.
  revert acc; induction a as [|x a IH]; intros acc Hacc Ha; simpl; auto.
  inversion Ha; subst. apply IH; auto. now apply sign_clear_add.
Qed.

Lemma square_clear (d : F64.vec) :
  Forall (fun x => F64.sign_clear x = true) (F64.np.square d).
Proof.
  unfold F64.np.square. apply Forall_forall. intros x Hx.
  apply in_map_iff in Hx as (x0 & <- & _). apply sign_clear_square.
Qed.

Lemma f64_truediv_clear (a b : Z) (c : PrimFloat.float) :
  F64.py_truediv a b = Ok c -> F64.sign_clear c = true.
Proof.
  unfold F64.py_truediv. destruct (b =? 0)%Z; [discriminate|].
  intros H; injection H as <-. apply sign_clear_div; apply sign_clear_of_Z.
Qed.

Lemma f64_compute_cost_clear (X : F64.ndarray) (y theta : F64.vec)
      (c : PrimFloat.float) :
  F64.GradientDescent.compute_cost X y theta = Ok c ->
  F64.sign_clear c = true.
Proof.
  unfold F64.GradientDescent.compute_cost. intros H. inv_bind H.
  injection H as <-. apply sign_clear_mul.
  - eapply f64_truediv_clear; eauto.
  - unfold F64.np.sum. apply sum_from_clear; [reflexivity|apply square_clear].
Qed.

Lemma f64_setitem_clear (a : F64.vec) (i : nat) (c : PrimFloat.float)
      (a' : F64.vec) :
  Forall (fun x => F64.sign_clear x = true) a ->
  F64.sign_clear c = true ->
  F64.np.setitem a i c = Ok a' ->
  Forall (fun x => F64.sign_clear x = true) a'.
Proof.
  revert i a'; induction a as [|x a IH]; intros i a' Ha Hc H; simpl in H.
  - discriminate.
  - inversion Ha; subst. destruct i as [|i].
    + injection H as <-. now constructor.
    + inv_bind H. injection H as <-. constructor; eauto.
Qed.

Lemma f64_gd_body_clear (X : F64.ndarray) (y : F64.vec)
      (alpha : PrimFloat.float) (m : Z) (i : nat) (s s' : F64.vec * F64.vec) :
  Forall (fun x => F64.sign_clear x = true) (snd s) ->
  F64.GradientDescent.gd_body X y alpha m i s = Ok s' ->
  Forall (fun x => F64.sign_clear x = true) (snd s').
Proof.
  destruct s as [theta h]. unfold F64.GradientDescent.gd_body.
  intros Hh H. inv_bind H. injection H as <-. cbn [snd] in *.
  eapply f64_setitem_clear; eauto. eapply f64_compute_cost_clear; eauto.
Qed.

Lemma f64_history_clear (F : F64.ndarray) (y : F64.vec)
      (alpha : PrimFloat.float) (K : Z) (theta h : F64.vec) :
  F64.GradientDescent.gradient_descent F y alpha K = Ok (theta, h) ->
  Forall (fun x => F64.sign_clear x = true) h.
Proof.
  unfold F64.GradientDescent.gradient_descent. intros H. inv_bind H.
  change h with (snd (theta, h)).
  eapply (for_loop_inv
            (fun s => Forall (fun x => F64.sign_clear x = true) (snd s)));
    [| |exact H].
  - intros i s s'. apply f64_gd_body_clear.
  - cbn [snd]. unfold F64.np.zeros in E. destruct (K <? 0)%Z; [discriminate|].
    injection E as <-. apply Forall_forall. intros x Hx.
    apply repeat_spec in Hx. now subst.
Qed.

Lemma f64_ones_of_nat (n : nat) :
  F64.np.ones (Z.of_nat n) = Ok (repeat PrimFloat.one n).
Proof.
  unfold F64.np.ones.
  replace (Z.of_nat n <? 0)%Z with false by (symmetry; apply Z.ltb_ge; lia).
  now rewrite Nat2Z.id.
Qed.

Lemma f64_zeros_of_nat (n : nat) :
  F64.np.zeros (Z.of_nat n) = Ok (repeat PrimFloat.zero n).
Proof.
  unfold F64.np.zeros.
  replace (Z.of_nat n <? 0)%Z with false by (symmetry; apply Z.ltb_ge; lia).
  now rewrite Nat2Z.id.
Qed.

Lemma f64_combine_ones (A : list F64.vec) :
  map (fun p : PrimFloat.float * F64.vec => fst p :: snd p)
      (combine (repeat PrimFloat.one (length A)) A) =
  map (cons PrimFloat.one) A.
Proof. induction A as [|r A IH]; simpl; auto. now rewrite IH. Qed.

Lemma f64_augment_ok (F : F64.ndarray) :
  F64.augment F = Ok (F64.Mat (S (F64.ncols F)) (F64.design F)).
Proof.
  unfold F64.augment. rewrite f64_ones_of_nat. cbn [bind].
  unfold F64.np.column_stack. rewrite repeat_length, Nat.eqb_refl.
  unfold F64.shape0. now rewrite f64_combine_ones.
Qed.

Lemma f64_gd_zero_samples (F : F64.ndarray) (alpha : PrimFloat.float) (K : Z) :
  (0 < K)%Z ->
  F64.GradientDescent.gradient_descent F [] alpha K = Raise ZeroDivisionError.
Proof.
  intros HK. unfold F64.GradientDescent.gradient_descent.
  unfold F64.np.zeros at 1.
  replace (K <? 0)%Z with false by (symmetry; apply Z.ltb_ge; lia).
  cbn [bind]. rewrite f64_augment_ok. cbn [bind].
  unfold F64.shape1; cbn [F64.ncols].
  rewrite f64_zeros_of_nat. cbn [bind]. unfold range.
  destruct (Z.to_nat K) as [|k] eqn:E; [lia|]. reflexivity.
Qed.

(** C10. In float64 the cost that [compute_cost] returns is never negative,
    but it need not be [>= 0]: it is [>= 0] or NaN, and so is every entry
    of the cost history of [gradient_descent].  With no sample (empty
    target vector) the divisor is zero: [compute_cost] raises
    [ZeroDivisionError] once [X.dot(theta)] is well shaped, and
    [gradient_descent] raises it in its first pass when there is at least
    one iteration.  The arrays are float64 arrays, as [gradient_descent]
    makes them by starting from [np.zeros]. *)
Theorem cost_never_negative_and_zero_samples :
  (forall X y theta c,
      F64.GradientDescent.compute_cost X y theta = Ok c ->
      F64.never_negative c) /\
  (forall F y alpha K theta h,
      F64.GradientDescent.gradient_descent F y alpha K = Ok (theta, h) ->
      Forall F64.never_negative h) /\
  (forall X theta,
      F64.shape1 X = length theta ->
      F64.GradientDescent.compute_cost X [] theta = Raise ZeroDivisionError) /\
  (forall F alpha K,
      (0 < K)%Z ->
      F64.GradientDescent.gradient_descent F [] alpha K =
      Raise ZeroDivisionError).
Proof.
  split; [|split; [|split]].
  - intros X y theta c H. apply sign_clear_never_negative.
    eapply f64_compute_cost_clear; eauto.
  - intros F y alpha K theta h H. apply f64_history_clear in H.
    eapply Forall_impl; [|exact H]. apply sign_clear_never_negative.
  - intros X theta H. unfold F64.GradientDescent.compute_cost, F64.np.dot_mv.
    now rewrite H, Nat.eqb_refl.
  - apply f64_gd_zero_samples.
Qed.

(** ** Shapes in float64 *)

Lemma f64_cols_length (n : nat) (A : list F64.vec) :
  length (F64.cols n A) = n.
Proof. unfold F64.cols; now rewrite length_map, length_seq. Qed.

Lemma f64_mm_length (n : nat) (A B : list F64.vec) :
  length (F64.mm n A B) = length A.
Proof. unfold F64.mm; apply length_map. Qed.

Lemma f64_mv_length (A : list F64.vec) (v : F64.vec) :
  length (F64.mv A v) = length A.
Proof. unfold F64.mv; apply length_map. Qed.

Lemma f64_design_length (F : F64.ndarray) :
  length (F64.design F) = F64.shape0 F.
Proof. unfold F64.design; apply length_map. Qed.

Lemma f64_zip_with_length (f : PrimFloat.float -> PrimFloat.float -> PrimFloat.float)
      (a b : F64.vec) :
  length a = length b -> length (F64.zip_with f a b) = length a.
Proof.
  revert b; induction a as [|x a IH]; intros [|y b] H; simpl in *;
    try discriminate; auto.
Qed.

Lemma f64_sub_same_length (a b : F64.vec) :
  length a = length b -> F64.np.sub a b = Ok (F64.vsub a b).
Proof. intros H. unfold F64.np.sub. now rewrite H, Nat.eqb_refl. Qed.

Lemma f64_sub_broadcast_r (p : F64.vec) (y0 : PrimFloat.float) :
  F64.np.sub p [y0] = Ok (map (fun x => PrimFloat.sub x y0) p).
Proof.
  unfold F64.np.sub. destruct p as [|x [|x' p]]; reflexivity.
Qed.

Lemma f64_sub_mismatch (a b : F64.vec) :
  length a <> length b -> (2 <= length b)%nat ->
  (length a = 1%nat /\
   exists r, F64.np.sub a b = Ok r /\ length r = length b) \/
  F64.np.sub a b = Raise ValueError.
Proof.
  intros Hne Hb. unfold F64.np.sub.
  replace (length a =? length b) with false
    by (symmetry; now apply Nat.eqb_neq).
  destruct a as [|x [|x' a]].
  - right. destruct b as [|y0 [|y1 b]]; simpl in *; auto; lia.
  - left. split; auto. eexists; split; [reflexivity|apply length_map].
  - right. destruct b as [|y0 [|y1 b]]; simpl in *; auto; lia.
Qed.

Lemma f64_truediv_ok (a b : Z) :
  b <> 0%Z ->
  F64.py_truediv a b = Ok (PrimFloat.div (F64.of_Z a) (F64.of_Z b)).
Proof.
  intros H. unfold F64.py_truediv.
  now replace (b =? 0)%Z with false by (symmetry; now apply Z.eqb_neq).
Qed.

Lemma f64_setitem_length (a : F64.vec) (i : nat) (c : PrimFloat.float)
      (a' : F64.vec) :
  F64.np.setitem a i c = Ok a' -> length a' = length a.
Proof.
  revert i a'; induction a as [|x a IH]; intros [|i] a' H;
    cbn [F64.np.setitem] in H; try discriminate.
  - now injection H as <-.
  - inv_bind H. injection H as <-. cbn [length]. f_equal. eauto.
Qed.

Lemma f64_setitem_lt (a : F64.vec) (i : nat) (c : PrimFloat.float) :
  (i < length a)%nat -> exists a', F64.np.setitem a i c = Ok a'.
Proof.
  revert i; induction a as [|x a IH]; intros [|i] H; cbn [length] in H;
    try lia; cbn [F64.np.setitem]; eauto.
  destruct (IH i) as (a' & ->); [lia|]. cbn [bind]. eauto.
Qed.

(** The fit, with the shape checks of the two matrix products discharged:
    what remains is the inversion and the last product with [y]. *)
Lemma f64_mlr_unfold (F : F64.ndarray) (y : F64.vec) :
  let n := S (F64.ncols F) in
  let X := F64.design F in
  F64.NormalEquation.multiple_linear_regression F y =
  match F64.inverse_rows n (F64.mm n (F64.cols n X) X) with
  | Some B =>
      F64.np.dot_mv
        (F64.Mat (length X) (F64.mm (length X) B (F64.cols n X))) y
  | None => Raise LinAlgError
  end.
Proof.
  intros n X. unfold F64.NormalEquation.multiple_linear_regression.
  rewrite f64_augment_ok. cbn [bind]. fold n X.
  unfold F64.np.dot_mm at 1. unfold F64.np.T, F64.shape0, F64.shape1.
  cbn [F64.ncols F64.rows]. rewrite Nat.eqb_refl. cbn [bind].
  unfold F64.np.linalg.inv, F64.shape0, F64.shape1. cbn [F64.ncols F64.rows].
  rewrite f64_mm_length, f64_cols_length, Nat.eqb_refl.
  destruct (F64.inverse_rows n _) as [B|]; cbn [bind]; auto.
  unfold F64.np.dot_mm, F64.shape0, F64.shape1. cbn [F64.ncols F64.rows].
  rewrite f64_cols_length, Nat.eqb_refl. cbn [bind].
  destruct (F64.np.dot_mv _ y); reflexivity.
Qed.

Lemma f64_gd_body_mismatch (n : nat) (X : list F64.vec) (y : F64.vec)
      (alpha : PrimFloat.float) (i : nat) (theta h : F64.vec) :
  length theta = n -> length y <> length X -> (2 <= length y)%nat ->
  F64.GradientDescent.gd_body (F64.Mat n X) y alpha (Z.of_nat (length y)) i
    (theta, h) = Raise ValueError.
Proof.
  intros Ht Hne Hy. unfold F64.GradientDescent.gd_body.
  rewrite f64_truediv_ok by lia. cbn [bind].
  unfold F64.np.dot_mv at 1, F64.shape1. cbn [F64.ncols F64.rows].
  rewrite Ht, Nat.eqb_refl. cbn [bind].
  destruct (f64_sub_mismatch (F64.mv X theta) y) as [(H1 & r & -> & Hr)| ->];
    auto.
  - rewrite f64_mv_length; congruence.
  - cbn [bind]. unfold F64.np.dot_mv at 1, F64.np.T, F64.shape0, F64.shape1.
    cbn [F64.ncols F64.rows].
    rewrite f64_mv_length in H1. rewrite H1, Hr.
    replace (1 =? length y) with false
      by (symmetry; apply Nat.eqb_neq; lia).
    reflexivity.
Qed.

Lemma f64_vscale_length (c : PrimFloat.float) (a : F64.vec) :
  length (F64.vscale c a) = length a.
Proof. unfold F64.vscale; apply length_map. Qed.

(** With a single target every pass of the loop goes through. *)
Lemma f64_gd_single_target (F : F64.ndarray) (y0 alpha : PrimFloat.float)
      (K : Z) :
  (0 <= K)%Z ->
  exists theta h,
    F64.GradientDescent.gradient_descent F [y0] alpha K = Ok (theta, h) /\
    length theta = S (F64.ncols F) /\ Z.of_nat (length h) = K.
Proof.
  intros HK.
  unfold F64.GradientDescent.gradient_descent. unfold F64.np.zeros at 1.
  replace (K <? 0)%Z with false by (symmetry; apply Z.ltb_ge; lia).
  cbn [bind]. rewrite f64_augment_ok. cbn [bind].
  unfold F64.shape1; cbn [F64.ncols]. rewrite f64_zeros_of_nat. cbn [bind].
  destruct (for_loop_total
              (fun s : F64.vec * F64.vec =>
                 length (fst s) = S (F64.ncols F) /\
                 length (snd s) = Z.to_nat K)
              (F64.GradientDescent.gd_body
                 (F64.Mat (S (F64.ncols F)) (F64.design F))
                 [y0] alpha (Z.of_nat (length [y0])))
              (range K)) with (s := (repeat PrimFloat.zero (S (F64.ncols F)),
                                     repeat PrimFloat.zero (Z.to_nat K)))
    as ([theta h] & Hs' & Ht & Hh).
  - intros i [t hh] Hi (Ht & Hh); cbn [fst snd] in *.
    apply in_seq in Hi.
    unfold F64.GradientDescent.gd_body. cbn [length].
    rewrite f64_truediv_ok by lia. cbn [bind].
    unfold F64.np.dot_mv at 1, F64.shape1. cbn [F64.ncols F64.rows].
    rewrite Ht, Nat.eqb_refl. cbn [bind].
    rewrite f64_sub_broadcast_r. cbn [bind].
    unfold F64.np.dot_mv at 1, F64.np.T, F64.shape0, F64.shape1.
    cbn [F64.ncols F64.rows].
    rewrite length_map, f64_mv_length, Nat.eqb_refl. cbn [bind].
    rewrite f64_sub_same_length
      by (unfold F64.np.scale;
          now rewrite !f64_vscale_length, f64_mv_length, f64_cols_length).
    cbn [bind].
    unfold F64.GradientDescent.compute_cost, F64.np.dot_mv, F64.shape1.
    cbn [F64.ncols F64.rows length].
    replace (S (F64.ncols F) =? length _) with true
      by (symmetry; apply Nat.eqb_eq; unfold F64.vsub;
          rewrite f64_zip_with_length; auto; unfold F64.np.scale;
          now rewrite !f64_vscale_length, f64_mv_length, f64_cols_length).
    cbn [bind].
    change (2 * Z.of_nat 1)%Z with (Z.of_nat 2).
    rewrite f64_truediv_ok by lia. cbn [bind].
    rewrite f64_sub_broadcast_r. cbn [bind].
    match goal with
    | |- context [F64.np.setitem hh i ?c] =>
        destruct (f64_setitem_lt hh i c) as (h2 & Eh2);
          [unfold range in *; lia|]
    end.
    rewrite Eh2. cbn [bind]. eexists; split; [reflexivity|].
    cbn [fst snd]. split.
    + unfold F64.vsub. now rewrite f64_zip_with_length
        by (unfold F64.np.scale;
            now rewrite !f64_vscale_length, f64_mv_length, f64_cols_length).
    + apply f64_setitem_length in Eh2. congruence.
  - cbn [fst snd]. now rewrite !repeat_length.
  - cbn [fst snd] in *. exists theta, h. split; [exact Hs'|]. split; auto. lia.
Qed.

(** ** The normal equation in float64 *)


(** ** Mismatched lengths in float64 *)

(** C5, as the code has it.  No length is checked.  When the target vector
    and the feature matrix disagree on the number of rows, the normal
    equation never returns: it raises [LinAlgError] when [np.linalg.inv]
    rejects [X^T X] and [ValueError], from its last product, when
    [np.linalg.inv] returns.  Gradient descent raises [ValueError] when
    there is an iteration and at least two targets, and
    [ZeroDivisionError] when there is an iteration and no target; with
    no iteration it returns zeros and an empty history, and with a single
    target, which numpy broadcasts over all rows, it returns for every
    number of iterations. *)
Theorem dimension_mismatch_behaviour (F : F64.ndarray) (y : F64.vec) :
  length y <> F64.shape0 F ->
  let n := S (F64.ncols F) in
  let X := F64.design F in
  F64.NormalEquation.multiple_linear_regression F y =
  match F64.np.linalg.inv (F64.Mat n (F64.gram n X)) with
  | Ok _ => Raise ValueError
  | Raise e => Raise e
  end /\
  (forall beta, F64.NormalEquation.multiple_linear_regression F y <> Ok beta) /\
  (forall alpha K,
      (0 < K)%Z -> (2 <= length y)%nat ->
      F64.GradientDescent.gradient_descent F y alpha K = Raise ValueError) /\
  (forall alpha K,
      (0 < K)%Z -> y = [] ->
      F64.GradientDescent.gradient_descent F y alpha K =
      Raise ZeroDivisionError) /\
  (forall alpha,
      F64.GradientDescent.gradient_descent F y alpha 0 =
      Ok (repeat PrimFloat.zero n, [])) /\
  (forall y0 alpha K,
      y = [y0] -> (0 <= K)%Z ->
      exists theta h,
        F64.GradientDescent.gradient_descent F y alpha K = Ok (theta, h) /\
        length theta = n /\ Z.of_nat (length h) = K).
Proof.
  intros Hy n X.
  assert (H : F64.NormalEquation.multiple_linear_regression F y =
              match F64.np.linalg.inv (F64.Mat n (F64.gram n X)) with
              | Ok _ => Raise ValueError
              | Raise e => Raise e
              end).
  { rewrite f64_mlr_unfold. fold n X.
    unfold F64.np.linalg.inv, F64.shape0, F64.shape1, F64.gram.
    cbn [F64.ncols F64.rows].
    rewrite f64_mm_length, f64_cols_length, Nat.eqb_refl.
    destruct (F64.inverse_rows n _) as [B|]; auto.
    unfold F64.np.dot_mv, F64.shape1. cbn [F64.ncols F64.rows].
    unfold X at 1. rewrite f64_design_length.
    replace (F64.shape0 F =? length y) with false
      by (symmetry; apply Nat.eqb_neq; congruence).
    reflexivity. }
  split; [exact H|]. split; [|split; [|split; [|split]]].
  - intros beta Hb. rewrite H in Hb.
    destruct (F64.np.linalg.inv _); discriminate.
  - intros alpha K HK H2. unfold F64.GradientDescent.gradient_descent.
    unfold F64.np.zeros at 1.
    replace (K <? 0)%Z with false by (symmetry; apply Z.ltb_ge; lia).
    cbn [bind]. rewrite f64_augment_ok. cbn [bind].
    unfold F64.shape1; cbn [F64.ncols].
    rewrite f64_zeros_of_nat. cbn [bind]. unfold range.
    destruct (Z.to_nat K) as [|k] eqn:E; [lia|]. cbn [seq for_loop].
    rewrite f64_gd_body_mismatch; auto.
    + apply repeat_length.
    + now rewrite f64_design_length.
  - intros alpha K HK ->. now apply f64_gd_zero_samples.
  - intros alpha. unfold F64.GradientDescent.gradient_descent.
    cbn [F64.np.zeros Z.ltb Z.compare Z.to_nat repeat bind].
    rewrite f64_augment_ok. cbn [bind]. unfold F64.shape1; cbn [F64.ncols].
    rewrite f64_zeros_of_nat. reflexivity.
  - intros y0 alpha K -> HK. now apply f64_gd_single_target.
Qed.

(** ** Evidence and instances in float64 *)


(** The claim C10 as the specification words it fails in float64: with
    features [2^1023] and [-2^1023] and coefficients 2 the prediction is
    [inf - inf], and the cost is NaN, which is not [>= 0]; and on the
    notebook's data a learning rate of 1 makes the run diverge, so that
    after 300 iterations the last cost of the history is NaN. *)
Lemma cost_nan_counterexample :
  (exists c,
      F64.GradientDescent.compute_cost F64.X_huge [PrimFloat.zero]
        F64.theta_huge = Ok c /\
      PrimFloat.leb PrimFloat.zero c = false) /\
  match F64.GradientDescent.gradient_descent
          F64.X_example F64.y_example PrimFloat.one 300 with
  | Ok (_, h) => PrimFloat.leb PrimFloat.zero (last h PrimFloat.zero)
  | Raise _ => true
  end = false.
Proof.
  split.
  - exists PrimFloat.nan. split; vm_compute; reflexivity.
  - vm_compute. reflexivity.
Qed.

(** On the notebook's data the float64 fit and its predictions are within
    [1e-6] of [[-3; -1; 3]] and [[2; 10]]. *)
Example example_fit_float64 :
  match F64.NormalEquation.multiple_linear_regression
          F64.X_example F64.y_example with
  | Ok beta =>
      F64.close F64.tolerance beta F64.beta_expected &&
      match F64.NormalEquation.predict F64.X_new beta with
      | Ok p => F64.close F64.tolerance p F64.predictions_expected
      | Raise _ => false
      end
  | Raise _ => false
  end = true.
Proof. vm_compute. reflexivity. Qed.


Lemma dimension_mismatch_behaviour_witness :
  length [PrimFloat.one; PrimFloat.two] <> F64.shape0 F64.X_example /\
  F64.NormalEquation.multiple_linear_regression
    F64.X_example [PrimFloat.one; PrimFloat.two] = Raise ValueError /\
  F64.GradientDescent.gradient_descent
    F64.X_example [PrimFloat.one; PrimFloat.two] F64.alpha_example 3 =
  Raise ValueError /\
  F64.GradientDescent.gradient_descent
    F64.X_example [PrimFloat.one; PrimFloat.two] F64.alpha_example 0 =
  Ok (repeat PrimFloat.zero 3, []).
Proof.
  assert (H : length [PrimFloat.one; PrimFloat.two] <>
              F64.shape0 F64.X_example) by (cbn; lia).
  split; [exact H|].
  destruct (dimension_mismatch_behaviour
              F64.X_example [PrimFloat.one; PrimFloat.two] H)
    as (Hfit & _ & Hgd & _ & Hzero & _).
  split; [|split].
  - rewrite Hfit. vm_compute. reflexivity.
  - apply Hgd; [lia|cbn; lia].
  - apply Hzero.
Defined.

Lemma cost_never_negative_and_zero_samples_witness :
  Forall F64.never_negative
         (match F64.GradientDescent.gradient_descent
                  F64.X_example F64.y_example F64.alpha_example 2 with
          | Ok (_, h) => h
          | Raise _ => []
          end) /\
  F64.GradientDescent.compute_cost
    (F64.Mat 1 [[PrimFloat.one]]) [] [PrimFloat.zero] =
  Raise ZeroDivisionError /\
  F64.GradientDescent.gradient_descent F64.X_example [] F64.alpha_example 1 =
  Raise ZeroDivisionError.
Proof.
  destruct cost_never_negative_and_zero_samples as (_ & Hhist & Hcost & Hgd).
  split; [|split].
  - destruct (F64.GradientDescent.gradient_descent
                F64.X_example F64.y_example F64.alpha_example 2)
      as [[t h]|e] eqn:E.
    + exact (Hhist _ _ _ _ _ _ E).
    + constructor.
  - apply Hcost; reflexivity.
  - apply Hgd; lia.
Defined.
